(** * tools/parse_convos.py: extraction of inlined files from conversation
      transcripts

    A shallow embedding of [tools/parse_convos.py] and the properties of its
    line scanner, its registry and its driver.

    Python values are modelled as follows.
    - [str] is a list of Unicode code points ([N]); [len] is [length].
    - the result of [f.readlines()] is a [list str] (one entry per line, the
      line terminator included when the file has it).
    - [files_map], an [OrderedDict], is an association list kept in
      first-insertion order ([od_set] replaces in place or appends).
    - of [main], the loop of lines 143-153 that builds [files_map] is
      embedded. The rest of the function (lines 155-186: the write loop and
      the report) is not: line 166 reads [path.lstrip('/\')], where the
      backslash escapes the closing quote, so the string literal is never
      closed and the text from there on has no reading as Python. *)

From Stdlib Require Import List NArith Arith Lia Ascii String DecimalString.
From stdpp Require Import base option list.
From Equations.Prop Require Import Equations Logic.
Import ListNotations.

Set Default Proof Using "Type".
Local Open Scope N_scope.
Local Open Scope list_scope.

(** ** Python strings *)

Module PyStr.

Definition char : Type := N.
Definition str : Type := list char.

(** A literal: the code points of an ASCII Rocq string. *)
Definition py (s : string) : str := map N_of_ascii (list_ascii_of_string s).

Definition nl : char := 10.
Definition slash : char := 47.
Definition backslash : char := 92.
Definition dquote : char := 34.

(** [str.isspace] on one character, which is also the class [\s] of [re]
    on [str] patterns: CPython's [_PyUnicode_IsWhitespace]. *)
Definition isspace (c : char) : bool :=
  ((9 <=? c) && (c <=? 13)) || ((28 <=? c) && (c <=? 32))
  || (c =? 133) || (c =? 160) || (c =? 5760)
  || ((8192 <=? c) && (c <=? 8202))
  || (c =? 8232) || (c =? 8233) || (c =? 8239) || (c =? 8287) || (c =? 12288).

(** The class [.] of [re] without DOTALL. *)
Definition dot (c : char) : bool := negb (c =? nl).

Definition str_eqb (a b : str) : bool := bool_decide (a = b).

Fixpoint startswith (s prefix : str) : bool :=
  match prefix, s with
  | [], _ => true
  | p :: prefix', c :: s' => (c =? p) && startswith s' prefix'
  | _ :: _, [] => false
  end.

Definition endswith (s suffix : str) : bool :=
  startswith (rev s) (rev suffix).

(** [s.lstrip(chars)], [s.rstrip(chars)] with the set given as a predicate. *)
Fixpoint lstrip_by (f : char -> bool) (s : str) : str :=
  match s with
  | [] => []
  | c :: s' => if f c then lstrip_by f s' else s
  end.

Definition rstrip_by (f : char -> bool) (s : str) : str :=
  rev (lstrip_by f (rev s)).

(** [s.strip()] *)
Definition strip (s : str) : str := rstrip_by isspace (lstrip_by isspace s).

(** [s.replace(a, b)] for one-character [a] and [b]. *)
Definition replace_char (a b : char) (s : str) : str :=
  map (fun c => if c =? a then b else c) s.

(** [s[1:-1]] *)
Definition slice_1_m1 (s : str) : str := removelast (tl s).

(** [''.join(buf)] *)
Definition join (buf : list str) : str := concat buf.

(** [str(n)] for a non-negative integer, as an f-string prints it. *)
Definition str_of_nat (n : nat) : str :=
  py (NilEmpty.string_of_uint (Nat.to_uint n)).

(** Number of bytes of the UTF-8 encoding of one code point, and of a
    string: what [open(..., 'w', encoding='utf-8').write] puts on disk. *)
Definition utf8_width (c : char) : nat :=
  if c <? 128 then 1%nat else if c <? 2048 then 2%nat
  else if c <? 65536 then 3%nat else 4%nat.

Definition utf8_len (s : str) : nat := list_sum (map utf8_width s).

Definition is_ascii (s : str) : bool := forallb (fun c => c <? 128) s.

End PyStr.
Import PyStr.

(** ** A backtracking matcher for the fragment of [re] the script uses *)

Module Re.

Inductive regex : Type :=
| Lit (t : str)                                   (* literal text *)
| Rep (greedy : bool) (least : nat) (cls : char -> bool)
                                                  (* cls* cls+ (greedy), cls+? (lazy) *)
| Maybe (r : regex)                               (* (?:r)? and c? *)
| Group (r : regex)                               (* (r), the only group: group 1 *)
| Cat (r1 r2 : regex).

Fixpoint strip_prefix (t s : str) : option str :=
  match t, s with
  | [], _ => Some s
  | p :: t', c :: s' => if c =? p then strip_prefix t' s' else None
  | _ :: _, [] => None
  end.

(** Repetition of a character class, at least [least] times, followed by the
    continuation [k]; the greedy form tries the longer match first, the lazy
    form the shorter one. *)
Fixpoint rep_match {A} (greedy : bool) (cls : char -> bool) (least : nat)
    (s : str) (k : str -> option A) : option A :=
  match s with
  | [] => match least with O => k [] | S _ => None end
  | c :: s' =>
      match least with
      | S m => if cls c then rep_match greedy cls m s' k else None
      | O =>
          if cls c then
            if greedy then
              match rep_match greedy cls O s' k with
              | Some x => Some x
              | None => k s
              end
            else
              match k s with
              | Some x => Some x
              | None => rep_match greedy cls O s' k
              end
          else k s
      end
  end.

(** [rmatch r s g k]: match [r] at the start of [s]; [g] is group 1 so far;
    [k] continues with the rest of the text. *)
Fixpoint rmatch {A} (r : regex) (s : str) (g : option str)
    (k : str -> option str -> option A) : option A :=
  match r with
  | Lit t =>
      match strip_prefix t s with
      | Some s' => k s' g
      | None => None
      end
  | Rep greedy least cls => rep_match greedy cls least s (fun s' => k s' g)
  | Maybe r1 =>
      match rmatch r1 s g k with
      | Some x => Some x
      | None => k s g
      end
  | Group r1 =>
      rmatch r1 s g
        (fun s' _ => k s' (Some (firstn (length s - length s') s)))
  | Cat r1 r2 => rmatch r1 s g (fun s' g' => rmatch r2 s' g' k)
  end.

(** [pattern.match(s)]: anchored at the start of [s], free at its end. The
    result is the match object reduced to [m.group(1)]. *)
Definition re_match (r : regex) (s : str) : option str :=
  rmatch r s None (fun _ g => Some (default [] g)).

Definition matches (r : regex) (s : str) : bool :=
  match re_match r s with Some _ => true | None => false end.

End Re.
Import Re.

Declare Scope re_scope.
Delimit Scope re_scope with re.
Infix "+>" := Cat (at level 60, right associativity) : re_scope.

(** ** The script *)

(** [FILE_BEGIN_RE = re.compile(r'^---\s*BEGIN(?:\s*FILE)?:\s*(.+?)\s*---')] *)
Definition FILE_BEGIN_RE : regex :=
  (Lit (py "---") +> Rep true 0 isspace +> Lit (py "BEGIN")
   +> Maybe (Rep true 0 isspace +> Lit (py "FILE"))
   +> Lit (py ":") +> Rep true 0 isspace
   +> Group (Rep false 1 dot) +> Rep true 0 isspace +> Lit (py "---"))%re.

(** [FILE_END_RE = re.compile(r'^---\s*END(?:\s*FILE)?:?\s*(.+?)\s*---')] *)
Definition FILE_END_RE : regex :=
  (Lit (py "---") +> Rep true 0 isspace +> Lit (py "END")
   +> Maybe (Rep true 0 isspace +> Lit (py "FILE"))
   +> Maybe (Lit (py ":")) +> Rep true 0 isspace
   +> Group (Rep false 1 dot) +> Rep true 0 isspace +> Lit (py "---"))%re.

(** [CODEFENCE_NAME_RE = re.compile(r'^```\s*name=(.+)')] *)
Definition CODEFENCE_NAME_RE : regex :=
  (Lit (py "```") +> Rep true 0 isspace +> Lit (py "name=")
   +> Group (Rep true 1 dot))%re.

(** [INLINE_NAME_RE = re.compile(r'^name=(.+)')] *)
Definition INLINE_NAME_RE : regex :=
  (Lit (py "name=") +> Group (Rep true 1 dot))%re.

(** [normalize_path(p)]. Both disjuncts of the test on line 40 compare
    the first and the last character with the double quote. *)
Definition normalize_path (p : str) : str :=
  let p := strip p in
  let p := replace_char backslash slash p in
  if (startswith p [dquote] && endswith p [dquote])
     || (startswith p [dquote] && endswith p [dquote])
  then slice_1_m1 p
  else p.

(** *** The registry: [files_map = OrderedDict()] *)

Definition record : Type := (nat * str)%type.        (* (convo_index, content) *)
Definition odict : Type := list (str * record).

(** [d[k] = v]: an existing key keeps its position, a new key goes last. *)
Fixpoint od_set (d : odict) (k : str) (v : record) : odict :=
  match d with
  | [] => [(k, v)]
  | (k', v') :: d' =>
      if str_eqb k' k then (k, v) :: d' else (k', v') :: od_set d' k v
  end.

(** [d.get(k)] *)
Fixpoint od_get (d : odict) (k : str) : option record :=
  match d with
  | [] => None
  | (k', v') :: d' => if str_eqb k' k then Some v' else od_get d' k
  end.

Definition od_keys (d : odict) : list str := map fst d.

(** *** The inner loops of [extract_from_file] *)

Definition is_fence (l : str) : bool := startswith l (py "```").
Definition is_blank (l : str) : bool := str_eqb (strip l) [].

(** [while i < n and not stop(lines[i]): buf.append(lines[i]); i += 1]:
    the buffer and the lines from position [i] on. *)
Fixpoint take_until (stop : str -> bool) (ls : list str)
    : list str * list str :=
  match ls with
  | [] => ([], [])
  | l :: ls' =>
      if stop l then ([], ls)
      else let '(buf, rest) := take_until stop ls' in (l :: buf, rest)
  end.

(** [if i < n and stop(lines[i]): i += 1] *)
Definition skip_if (stop : str -> bool) (ls : list str) : list str :=
  match ls with
  | l :: ls' => if stop l then ls' else ls
  | [] => []
  end.

(** [while i < n and lines[i].strip() == '': i += 1] *)
Fixpoint skip_blank (ls : list str) : list str :=
  match ls with
  | l :: ls' => if is_blank l then skip_blank ls' else ls
  | [] => []
  end.

(** [content = ''.join(buf).rstrip('\n') + '\n'] *)
Definition content_of (buf : list str) : str :=
  rstrip_by (N.eqb nl) (join buf) ++ [nl].

(** A block the scanner captured at some position: file name, content, and
    the lines that remain after the consumed span. *)
Definition capture : Type := (str * str * list str)%type.

(** Lines 53-66: explicit BEGIN/END markers. *)
Definition explicit_marker (ls : list str) : option capture :=
  match ls with
  | [] => None
  | line :: tl =>
      match re_match FILE_BEGIN_RE line with
      | Some g =>
          let fname := normalize_path g in
          let '(buf, rest) := take_until (matches FILE_END_RE) tl in
          let rest := skip_if (matches FILE_END_RE) rest in
          Some (fname, content_of buf, rest)
      | None => None
      end
  end.

(** Lines 69-82: a code fence with [name=...] on the fence line. *)
Definition named_fence (ls : list str) : option capture :=
  match ls with
  | [] => None
  | line :: tl =>
      match re_match CODEFENCE_NAME_RE line with
      | Some g =>
          let fname := normalize_path g in
          let '(buf, rest) := take_until is_fence tl in
          let rest := skip_if is_fence rest in
          Some (fname, content_of buf, rest)
      | None => None
      end
  end.

(** The stop test of line 103. *)
Definition inline_stop (l : str) : bool :=
  is_blank l || matches INLINE_NAME_RE l || matches FILE_BEGIN_RE l.

(** Lines 85-108: a [name=...] line followed by a fenced or a plain block. *)
Definition inline_name (ls : list str) : option capture :=
  match ls with
  | [] => None
  | line :: tl =>
      match re_match INLINE_NAME_RE line with
      | Some g =>
          let fname := normalize_path g in
          let tl := skip_blank tl in
          let '(buf, rest) :=
            match tl with
            | l :: tl' =>
                if is_fence l then
                  let '(buf, rest) := take_until is_fence tl' in
                  (buf, skip_if is_fence rest)
                else take_until inline_stop tl
            | [] => take_until inline_stop tl
            end in
          Some (fname, content_of buf, rest)
      | None => None
      end
  end.

(** Lines 111-130: a fence whose first line inside is a [name=...] header.
    [if found_name:] is false for [None] and for the empty string. *)
Definition embedded_name (ls : list str) : option capture :=
  match ls with
  | [] => None
  | line :: tl =>
      if is_fence line then
        let found_name :=
          match tl with
          | next :: tl' =>
              match re_match INLINE_NAME_RE next with
              | Some g => Some (normalize_path g, tl')
              | None => None
              end
          | [] => None
          end in
        match found_name with
        | Some (name, tl') =>
            if str_eqb name [] then None
            else
              let '(buf, rest) := take_until is_fence tl' in
              let rest := skip_if is_fence rest in
              Some (name, content_of buf, rest)
        | None => None
        end
      else None
  end.

(** One iteration of the [while i < n] loop: the four tests in source
    order; [None] is the final [i += 1]. *)
Definition recognize (ls : list str) : option capture :=
  match explicit_marker ls with
  | Some b => Some b
  | None =>
      match named_fence ls with
      | Some b => Some b
      | None =>
          match inline_name ls with
          | Some b => Some b
          | None => embedded_name ls
          end
      end
  end.

(** Every capture consumes at least the line it starts on. *)
Ltac capture_shrinks H :=
  let Htake := fresh "Htake" in
  let Hskip := fresh "Hskip" in
  let Hblank := fresh "Hblank" in
  assert (Htake : forall stop ls,
             (length (snd (take_until stop ls)) <= length ls)%nat)
    by (intros stop ls; induction ls as [|l ls IH]; simpl; [lia|];
        destruct (stop l); simpl; [lia|];
        destruct (take_until stop ls); simpl in *; lia);
  assert (Hskip : forall stop ls, (length (skip_if stop ls) <= length ls)%nat)
    by (intros stop [|l ls]; simpl; [lia|]; destruct (stop l); simpl; lia);
  assert (Hblank : forall ls, (length (skip_blank ls) <= length ls)%nat)
    by (intros ls; induction ls as [|l ls IH]; simpl; [lia|];
        destruct (is_blank l); simpl; lia);
  unfold recognize, explicit_marker, named_fence, inline_name,
    embedded_name in H;
  repeat match type of H with
    | context [re_match ?r ?l] => destruct (re_match r l)
    | context [is_fence ?l] => destruct (is_fence l)
    | context [str_eqb ?a ?b] => destruct (str_eqb a b)
    | context [take_until ?f ?l] =>
        let E := fresh "E" in
        pose proof (Htake f l) as E; destruct (take_until f l); simpl in E
    | context [match skip_blank ?l with _ => _ end] =>
        let E := fresh "E" in
        pose proof (Hblank l) as E; destruct (skip_blank l); simpl in E
    | context [match ?l with [] => _ | _ => _ end] => destruct l
    end;
  try discriminate;
  injection H as <- <- <-;
  repeat match goal with
    | |- context [skip_if ?f ?l] => pose proof (Hskip f l); generalize dependent (skip_if f l); intros
    end;
  simpl in *; lia.

(** Lines 48-132: the [while i < n] loop; [ls] is [lines[i:]]. *)
Equations? scan (convo_index : nat) (ls : list str) (files_map : odict)
    : odict by wf (length ls) lt :=
scan convo_index [] files_map := files_map;
scan convo_index (line :: tl) files_map
  with inspect (recognize (line :: tl)) := {
  | exist _ (Some (fname, content, rest)) Heq :=
      scan convo_index rest (od_set files_map fname (convo_index, content));
  | exist _ None _ := scan convo_index tl files_map }.
Proof. capture_shrinks Heq. Qed.

(** The blocks the loop captures, in scan order: the right-hand sides of
    the assignments [files_map[fname] = (convo_index, content)] that [scan]
    performs, listed instead of stored. *)
Equations? captured_blocks (convo_index : nat) (ls : list str)
    : list (str * record) by wf (length ls) lt :=
captured_blocks convo_index [] := [];
captured_blocks convo_index (line :: tl)
  with inspect (recognize (line :: tl)) := {
  | exist _ (Some (fname, content, rest)) Heq :=
      (fname, (convo_index, content)) :: captured_blocks convo_index rest;
  | exist _ None _ := captured_blocks convo_index tl }.
Proof. capture_shrinks Heq. Qed.

(** [extract_from_file(path, files_map, unknowns_counter, convo_index)],
    with [lines] the result of [f.readlines()] on [path]. The mutated
    [files_map] is returned next to the function's result. *)
Definition extract_from_file (lines : list str) (files_map : odict)
    (unknowns_counter : nat) (convo_index : nat) : odict * nat :=
  (scan convo_index lines files_map, unknowns_counter).

(** Lines 151-153: [for idx, p in enumerate(convo_paths, start=1)], over the
    transcripts in sorted path order. *)
Fixpoint parse_all (convos : list (list str)) (idx : nat) (files_map : odict)
    (unknowns_counter : nat) : odict * nat :=
  match convos with
  | [] => (files_map, unknowns_counter)
  | lines :: convos' =>
      let '(files_map, unknowns_counter) :=
        extract_from_file lines files_map unknowns_counter idx in
      parse_all convos' (S idx) files_map unknowns_counter
  end.

(** The registry after lines 143-153. *)
Definition registry (convos : list (list str)) : odict :=
  fst (parse_all convos 1 [] 0).

(** A transcript line given without its terminator. *)
Definition ln (s : string) : str := py s ++ [nl].

(** *** Notions used to state the properties *)

(** Folding a list of captured blocks into a registry. *)
Definition register_all (blocks : list (str * record)) (d : odict) : odict :=
  fold_left (fun d '(k, v) => od_set d k v) blocks d.

(** The blocks of all transcripts, in source order then scan order; [idx] is
    the index of the first transcript. *)
Fixpoint all_blocks (convos : list (list str)) (idx : nat)
    : list (str * record) :=
  match convos with
  | [] => []
  | lines :: convos' => captured_blocks idx lines ++ all_blocks convos' (S idx)
  end.

(** The last record for [k] in a list of blocks. *)
Fixpoint last_block (k : str) (blocks : list (str * record)) : option record :=
  match blocks with
  | [] => None
  | (k', v) :: blocks' =>
      match last_block k blocks' with
      | Some v' => Some v'
      | None => if str_eqb k' k then Some v else None
      end
  end.

(** First-insertion order of a sequence of keys: a key joins at the end
    the first time it is seen and never moves afterwards. *)
Definition seen (k : str) (ks : list str) : bool := existsb (str_eqb k) ks.


(** The content ends with a newline and not with two. *)
Definition ends_with_one_newline (c : str) : bool :=
  endswith c [nl] && negb (endswith c [nl; nl]).

(** The block that starts at the head of [ls] has name [name], takes the
    lines [body] as its content and leaves nothing to scan: the loop ends
    with that one registration. *)
Definition captures_to_end (ls : list str) (name : str) (body : list str)
    : Prop :=
  recognize ls = Some (name, content_of body, [])
  /\ forall (idx : nat) (fm : odict),
       scan idx ls fm = od_set fm name (idx, content_of body).

(** Acceptance by the embedded-name recognizer of every fence line that is
    not a named-fence opener and whose next line matches the inline-name
    pattern. *)
Definition embedded_name_accepts (line next : str) (rest : list str) : Prop :=
  is_fence line = true ->
  re_match CODEFENCE_NAME_RE line = None ->
  (exists g, re_match INLINE_NAME_RE next = Some g) ->
  exists b, embedded_name (line :: next :: rest) = Some b.

(** The line [line] carries the name [k]: one of the three patterns with a
    group matches it and [k] is the normalized group. *)
Definition named_by (line k : str) : Prop :=
  exists g,
    (re_match FILE_BEGIN_RE line = Some g
     \/ re_match CODEFENCE_NAME_RE line = Some g
     \/ re_match INLINE_NAME_RE line = Some g)
    /\ k = normalize_path g.

(** The placeholder names of the module docstring (line 15): [file_N.txt]
    under [unknowns/], relative to the output directory. *)
Definition placeholder_name (n : nat) : str :=
  py "unknowns/file_" ++ str_of_nat n ++ py ".txt".

(** The extraction pass puts no placeholder name into the registry. *)
Definition registers_no_placeholder (lines : list str) : Prop :=
  forall (fm : odict) (u idx n : nat),
    ~ In (placeholder_name n) (od_keys fm) ->
    ~ In (placeholder_name n)
        (od_keys (fst (extract_from_file lines fm u idx))).

(** The marker lines in the shape the module docstring gives them. *)
Definition begin_marker (p : str) : str :=
  py "--- BEGIN FILE: " ++ p ++ py " ---" ++ [nl].

Definition end_marker (p : str) : str :=
  py "--- END FILE: " ++ p ++ py " ---" ++ [nl].

(** [t in s] for strings. *)
Fixpoint has_infix (t s : str) : bool :=
  startswith s t
  || match s with
     | [] => false
     | _ :: s' => has_infix t s'
     end.

(** A path token that [normalize_path] leaves as it is and that a begin
    marker can carry: no blank at either end, no newline, no backslash, no
    double quote in first position, no run of three dashes. *)
Definition plain_path (p : str) : Prop :=
  isspace (hd 32 p) = false
  /\ isspace (List.last p 32) = false
  /\ Forall (fun c => dot c = true) p
  /\ ~ In backslash p
  /\ hd 32 p <> dquote
  /\ has_infix (py "---") p = false.

(** ** Properties *)

(** *** Strings *)

Section Strings.

Lemma str_eqb_eq (a b : str) : str_eqb a b = true <-> a = b.
Proof. unfold str_eqb. apply bool_decide_eq_true. Qed.

Lemma str_eqb_neq (a b : str) : str_eqb a b = false <-> a <> b.
Proof. unfold str_eqb. apply bool_decide_eq_false. Qed.

Lemma str_eqb_sym (a b : str) : str_eqb a b = str_eqb b a.
Proof. unfold str_eqb. now apply bool_decide_ext. Qed.

Lemma str_eqb_refl (a : str) : str_eqb a a = true.
Proof. now apply str_eqb_eq. Qed.

Lemma lstrip_by_head (f : char -> bool) (s : str) (c : char) (s' : str) :
  lstrip_by f s = c :: s' -> f c = false.
Proof.
  induction s as [|a s IH]; simpl; [discriminate|].
  destruct (f a) eqn:E; [exact IH|].
  intros [= <- _]. exact E.
Qed.

Lemma startswith_cons_inv (s : str) (p : char) (t : str) :
  startswith s (p :: t) = true -> exists s', s = p :: s' /\ startswith s' t = true.
Proof.
  destruct s as [|c s]; simpl; [discriminate|].
  intros [H1 H2]%andb_prop. apply N.eqb_eq in H1. subst. eauto.
Qed.

Lemma content_of_one_newline (buf : list str) :
  ends_with_one_newline (content_of buf) = true.
Proof.
  unfold ends_with_one_newline, endswith, content_of, rstrip_by.
  rewrite rev_app_distr, rev_involutive. simpl.
  destruct (lstrip_by (N.eqb nl) (rev (join buf))) as [|c s] eqn:E; [reflexivity|].
  apply lstrip_by_head in E. simpl.
  rewrite N.eqb_sym, E. reflexivity.
Qed.

Lemma utf8_len_ascii (s : str) : is_ascii s = true -> utf8_len s = length s.
Proof.
  unfold utf8_len, is_ascii. induction s as [|c s IH]; simpl; [reflexivity|].
  intros [Hc Hs]%andb_prop. unfold utf8_width at 1. rewrite Hc, (IH Hs).
  reflexivity.
Qed.

End Strings.

(** *** The patterns *)

Section Patterns.

Lemma strip_prefix_startswith (t s s' : str) :
  strip_prefix t s = Some s' -> startswith s t = true.
Proof.
  revert s. induction t as [|p t IH]; intros [|c s]; simpl; try easy.
  destruct (c =? p); [apply IH | discriminate].
Qed.

Lemma re_match_literal_prefix (t : str) (r : regex) (s g : str) :
  re_match (Lit t +> r)%re s = Some g -> startswith s t = true.
Proof.
  unfold re_match. simpl.
  destruct (strip_prefix t s) as [s'|] eqn:E; [|discriminate].
  intros _. exact (strip_prefix_startswith _ _ _ E).
Qed.

Lemma matches_true (r : regex) (s : str) :
  matches r s = true <-> exists g, re_match r s = Some g.
Proof.
  unfold matches. destruct (re_match r s).
  - split; eauto.
  - split; [discriminate | intros [g [=]]].
Qed.

Lemma matches_false (r : regex) (s : str) :
  matches r s = false <-> re_match r s = None.
Proof. unfold matches. destruct (re_match r s); split; congruence. Qed.

(** A line that starts with a backtick is neither a BEGIN marker nor an
    inline name. *)
Lemma fence_not_begin (line : str) :
  is_fence line = true -> re_match FILE_BEGIN_RE line = None.
Proof.
  unfold is_fence. change (py "```") with [96; 96; 96].
  intros (s & -> & _)%startswith_cons_inv. reflexivity.
Qed.

Lemma fence_not_inline (line : str) :
  is_fence line = true -> re_match INLINE_NAME_RE line = None.
Proof.
  unfold is_fence. change (py "```") with [96; 96; 96].
  intros (s & -> & _)%startswith_cons_inv. reflexivity.
Qed.

Lemma codefence_is_fence (line g : str) :
  re_match CODEFENCE_NAME_RE line = Some g -> is_fence line = true.
Proof. apply re_match_literal_prefix. Qed.

Lemma inline_not_begin (line g : str) :
  re_match INLINE_NAME_RE line = Some g -> re_match FILE_BEGIN_RE line = None.
Proof.
  intros H%re_match_literal_prefix. change (py "name=") with (110 :: py "ame=") in H.
  apply startswith_cons_inv in H as (s & -> & _). reflexivity.
Qed.

Lemma inline_not_codefence (line g : str) :
  re_match INLINE_NAME_RE line = Some g ->
  re_match CODEFENCE_NAME_RE line = None.
Proof.
  intros H%re_match_literal_prefix. change (py "name=") with (110 :: py "ame=") in H.
  apply startswith_cons_inv in H as (s & -> & _). reflexivity.
Qed.

End Patterns.

(** *** The inner loops *)

Section Loops.

Variable stop : str -> bool.

Lemma take_until_all (body : list str) :
  Forall (fun l => stop l = false) body ->
  take_until stop body = (body, []).
Proof.
  induction 1 as [|l body Hl _ IH]; simpl; [reflexivity|].
  now rewrite Hl, IH.
Qed.

Lemma take_until_stop (body : list str) (l : str) (rest : list str) :
  Forall (fun l => stop l = false) body ->
  stop l = true ->
  take_until stop (body ++ l :: rest) = (body, l :: rest).
Proof.
  intros Hbody Hl. induction Hbody as [|b body Hb _ IH]; simpl.
  - now rewrite Hl.
  - now rewrite Hb, IH.
Qed.

Lemma take_until_app (ls buf rest : list str) :
  take_until stop ls = (buf, rest) -> ls = buf ++ rest.
Proof.
  revert buf rest. induction ls as [|l ls IH]; simpl; intros buf rest.
  - now intros [= <- <-].
  - destruct (stop l); [now intros [= <- <-]|].
    destruct (take_until stop ls) as [b r]. intros [= <- <-].
    simpl. f_equal. now apply IH.
Qed.

Lemma skip_if_stop (l : str) (rest : list str) :
  stop l = true -> skip_if stop (l :: rest) = rest.
Proof. simpl. now intros ->. Qed.

End Loops.

Lemma skip_blank_app (blanks rest : list str) :
  Forall (fun l => is_blank l = true) blanks ->
  skip_blank (blanks ++ rest) = skip_blank rest.
Proof.
  induction 1 as [|l blanks Hl _ IH]; simpl; [reflexivity|].
  now rewrite Hl.
Qed.

Lemma skip_blank_nonblank (l : str) (rest : list str) :
  is_blank l = false -> skip_blank (l :: rest) = l :: rest.
Proof. simpl. now intros ->. Qed.

(** *** The scanner *)

Section Scanner.

Lemma scan_nil (idx : nat) (fm : odict) : scan idx [] fm = fm.
Proof. now simp scan. Qed.

Lemma scan_cons (idx : nat) (line : str) (tl : list str) (fm : odict) :
  scan idx (line :: tl) fm =
  match recognize (line :: tl) with
  | Some (fname, content, rest) =>
      scan idx rest (od_set fm fname (idx, content))
  | None => scan idx tl fm
  end.
Proof.
  simp scan.
  destruct (inspect (recognize (line :: tl))) as [[[[f c] r]|] H];
    simp scan; rewrite H; reflexivity.
Qed.

Lemma captured_blocks_cons (idx : nat) (line : str) (tl : list str) :
  captured_blocks idx (line :: tl) =
  match recognize (line :: tl) with
  | Some (fname, content, rest) =>
      (fname, (idx, content)) :: captured_blocks idx rest
  | None => captured_blocks idx tl
  end.
Proof.
  simp captured_blocks.
  destruct (inspect (recognize (line :: tl))) as [[[[f c] r]|] H];
    simp captured_blocks; rewrite H; reflexivity.
Qed.

Lemma recognize_shrinks (ls : list str) (f c : str) (rest : list str) :
  recognize ls = Some (f, c, rest) -> (length rest < length ls)%nat.
Proof.
  destruct ls as [|line tl]; [discriminate|].
  intros H. capture_shrinks H.
Qed.

(** Induction along the iterations of the loop. *)
Lemma scan_ind (P : list str -> Prop) :
  P [] ->
  (forall line tl, recognize (line :: tl) = None -> P tl -> P (line :: tl)) ->
  (forall line tl f c rest,
      recognize (line :: tl) = Some (f, c, rest) -> P rest -> P (line :: tl)) ->
  forall ls, P ls.
Proof.
  intros Hnil Hskip Htake ls.
  induction ls as [ls IH] using (induction_ltof1 _ (@length str)).
  unfold ltof in IH.
  destruct ls as [|line tl]; [exact Hnil|].
  destruct (recognize (line :: tl)) as [[[f c] rest]|] eqn:E.
  - apply (Htake _ _ _ _ _ E). apply IH. exact (recognize_shrinks _ _ _ _ E).
  - apply (Hskip _ _ E). apply IH. simpl. lia.
Qed.

Lemma scan_register_all (idx : nat) (ls : list str) (fm : odict) :
  scan idx ls fm = register_all (captured_blocks idx ls) fm.
Proof.
  revert fm. induction ls as [|line tl E IH|line tl f c rest E IH] using scan_ind;
    intros fm.
  - now simp scan captured_blocks.
  - rewrite scan_cons, captured_blocks_cons, E. apply IH.
  - rewrite scan_cons, captured_blocks_cons, E. simpl. apply IH.
Qed.

(** Every recognizer builds its content with [content_of]. *)
Lemma explicit_marker_content (ls : list str) (f c : str) (rest : list str) :
  explicit_marker ls = Some (f, c, rest) -> exists buf, c = content_of buf.
Proof.
  destruct ls as [|line tl]; [discriminate|]. simpl.
  destruct (re_match FILE_BEGIN_RE line); [|discriminate].
  destruct (take_until _ tl) as [buf r]. intros [= _ <- _]. eauto.
Qed.

Lemma named_fence_content (ls : list str) (f c : str) (rest : list str) :
  named_fence ls = Some (f, c, rest) -> exists buf, c = content_of buf.
Proof.
  destruct ls as [|line tl]; [discriminate|]. simpl.
  destruct (re_match CODEFENCE_NAME_RE line); [|discriminate].
  destruct (take_until _ tl) as [buf r]. intros [= _ <- _]. eauto.
Qed.

Lemma inline_name_content (ls : list str) (f c : str) (rest : list str) :
  inline_name ls = Some (f, c, rest) -> exists buf, c = content_of buf.
Proof.
  destruct ls as [|line tl]; [discriminate|]. simpl.
  destruct (re_match INLINE_NAME_RE line); [|discriminate].
  destruct (skip_blank tl) as [|l tl'].
  - simpl. intros [= _ <- _]. eauto.
  - destruct (is_fence l).
    + destruct (take_until _ tl') as [buf r]. intros [= _ <- _]. eauto.
    + destruct (take_until _ (l :: tl')) as [buf r]. intros [= _ <- _]. eauto.
Qed.

Lemma embedded_name_content (ls : list str) (f c : str) (rest : list str) :
  embedded_name ls = Some (f, c, rest) -> exists buf, c = content_of buf.
Proof.
  destruct ls as [|line tl]; [discriminate|]. simpl.
  destruct (is_fence line); [|discriminate].
  destruct tl as [|next tl']; [discriminate|].
  destruct (re_match INLINE_NAME_RE next); [|discriminate].
  destruct (str_eqb _ []); [discriminate|].
  destruct (take_until _ tl') as [buf r]. intros [= _ <- _]. eauto.
Qed.

Lemma recognize_cases (ls : list str) (b : capture) :
  recognize ls = Some b ->
  explicit_marker ls = Some b \/ named_fence ls = Some b
  \/ inline_name ls = Some b \/ embedded_name ls = Some b.
Proof.
  unfold recognize.
  destruct (explicit_marker ls); [intros [= ->]; auto|].
  destruct (named_fence ls); [intros [= ->]; auto|].
  destruct (inline_name ls); [intros [= ->]; auto|].
  auto.
Qed.

End Scanner.

(** *** Which recognizer runs *)

Section Dispatch.

Lemma recognize_explicit (line g : str) (tl : list str) :
  re_match FILE_BEGIN_RE line = Some g ->
  recognize (line :: tl) = explicit_marker (line :: tl).
Proof.
  intros H. unfold recognize, explicit_marker. rewrite H.
  now destruct (take_until _ tl).
Qed.

Lemma recognize_named (line g : str) (tl : list str) :
  re_match CODEFENCE_NAME_RE line = Some g ->
  recognize (line :: tl) = named_fence (line :: tl).
Proof.
  intros H. unfold recognize, explicit_marker.
  rewrite (fence_not_begin _ (codefence_is_fence _ _ H)).
  unfold named_fence. rewrite H. now destruct (take_until _ tl).
Qed.

Lemma recognize_inline (line g : str) (tl : list str) :
  re_match INLINE_NAME_RE line = Some g ->
  recognize (line :: tl) = inline_name (line :: tl).
Proof.
  intros H. unfold recognize, explicit_marker, named_fence.
  rewrite (inline_not_begin _ _ H), (inline_not_codefence _ _ H).
  unfold inline_name. rewrite H.
  destruct (skip_blank tl) as [|l tl']; [reflexivity|].
  destruct (is_fence l); now destruct (take_until _ _).
Qed.

Lemma recognize_fence (line : str) (tl : list str) :
  is_fence line = true ->
  re_match CODEFENCE_NAME_RE line = None ->
  recognize (line :: tl) = embedded_name (line :: tl).
Proof.
  intros Hf Hn. unfold recognize, explicit_marker, named_fence, inline_name.
  rewrite (fence_not_begin _ Hf), Hn, (fence_not_inline _ Hf).
  reflexivity.
Qed.

Lemma lstrip_by_nil (f : char -> bool) (s : str) :
  lstrip_by f s = [] -> Forall (fun c => f c = true) s.
Proof.
  induction s as [|c s IH]; simpl; [constructor|].
  destruct (f c) eqn:E; [|discriminate]. auto.
Qed.

Lemma is_fence_inv (l : str) : is_fence l = true -> exists s, l = 96 :: s.
Proof.
  unfold is_fence. change (py "```") with [96; 96; 96].
  intros (s & -> & _)%startswith_cons_inv. eauto.
Qed.

Lemma strip_nonspace_head (c : char) (s : str) :
  isspace c = false -> strip (c :: s) <> [].
Proof.
  intros Hc H. unfold strip, rstrip_by in H. cbn [lstrip_by] in H.
  rewrite Hc in H. apply (f_equal (@rev char)) in H.
  rewrite rev_involutive in H. cbn [rev] in H.
  apply lstrip_by_nil, Forall_app in H. destruct H as [_ H].
  inversion H; congruence.
Qed.

Lemma fence_not_blank (l : str) : is_fence l = true -> is_blank l = false.
Proof.
  intros [s ->]%is_fence_inv. apply str_eqb_neq.
  now apply strip_nonspace_head.
Qed.

End Dispatch.

(** *** Captures *)

(** C6. Every block captured by one of the four recognizers has a content
    that ends with exactly one newline character, whatever the captured
    span was (also a span of no line at all, whose content is the single
    newline). *)
Theorem content_ends_with_one_newline
    (ls : list str) (fname content : str) (rest : list str) :
  explicit_marker ls = Some (fname, content, rest)
  \/ named_fence ls = Some (fname, content, rest)
  \/ inline_name ls = Some (fname, content, rest)
  \/ embedded_name ls = Some (fname, content, rest) ->
  ends_with_one_newline content = true
  /\ (forall buf : list str, join buf = [] -> content_of buf = [nl]).
Proof.
  intros H. split.
  - destruct H as [H|[H|[H|H]]];
      [apply explicit_marker_content in H | apply named_fence_content in H
      | apply inline_name_content in H | apply embedded_name_content in H];
      destruct H as [buf ->]; apply content_of_one_newline.
  - intros buf Hbuf. unfold content_of. now rewrite Hbuf.
Qed.

Lemma content_ends_with_one_newline_witness :
  explicit_marker
    [ln "--- BEGIN FILE: a.txt ---"; ln "hello"; [nl]; [nl]]
  = Some (py "a.txt", ln "hello", [])
  /\ ends_with_one_newline (ln "hello") = true.
Proof.
  split; [reflexivity|].
  apply (content_ends_with_one_newline
           [ln "--- BEGIN FILE: a.txt ---"; ln "hello"; [nl]; [nl]]
           (py "a.txt") (ln "hello") []).
  left. reflexivity.
Defined.

(** C4. The explicit-marker block is closed by the first line that has the
    shape of an end marker; the path inside that line plays no part (no
    hypothesis relates it to the path of the begin marker). The closing line
    is consumed and is not part of the content. *)
Theorem end_marker_shape_only
    (line g : str) (body : list str) (endl : str) (rest : list str) :
  re_match FILE_BEGIN_RE line = Some g ->
  Forall (fun l => matches FILE_END_RE l = false) body ->
  matches FILE_END_RE endl = true ->
  recognize (line :: body ++ endl :: rest)
  = Some (normalize_path g, content_of body, rest)
  /\ forall (idx : nat) (fm : odict),
       scan idx (line :: body ++ endl :: rest) fm
       = scan idx rest (od_set fm (normalize_path g) (idx, content_of body)).
Proof.
  intros Hb Hbody Hend.
  assert (recognize (line :: body ++ endl :: rest)
          = Some (normalize_path g, content_of body, rest)) as E.
  { rewrite (recognize_explicit _ _ _ Hb). unfold explicit_marker.
    rewrite Hb, (take_until_stop _ _ _ _ Hbody Hend).
    now rewrite (skip_if_stop _ _ _ Hend). }
  split; [exact E|]. intros idx fm. now rewrite scan_cons, E.
Qed.

Lemma end_marker_shape_only_witness :
  recognize [ln "--- BEGIN FILE: a ---"; ln "hello";
             ln "--- END FILE: b ---"; ln "after"]
  = Some (py "a", ln "hello", [ln "after"]).
Proof.
  apply (end_marker_shape_only (ln "--- BEGIN FILE: a ---") (py "a")
           [ln "hello"] (ln "--- END FILE: b ---") [ln "after"]).
  - reflexivity.
  - repeat constructor.
  - reflexivity.
Defined.

Lemma captures_to_end_intro (ls : list str) (name : str) (body : list str) :
  ls <> [] ->
  recognize ls = Some (name, content_of body, []) ->
  captures_to_end ls name body.
Proof.
  intros Hne E. split; [exact E|]. intros idx fm.
  destruct ls as [|line tl]; [contradiction|].
  rewrite scan_cons, E. apply scan_nil.
Qed.

(** C5. A block whose terminator never comes takes every remaining line of
    the transcript as its content, for each of the recognizers (the inline
    name in its fenced and in its plain form); the scan then ends normally
    with that block registered. *)
Theorem unterminated_block_reaches_end
    (line next g : str) (blanks body : list str) (opener : str) :
  let name := normalize_path g in
  (re_match FILE_BEGIN_RE line = Some g ->
   Forall (fun l => matches FILE_END_RE l = false) body ->
   captures_to_end (line :: body) name body)
  /\ (re_match CODEFENCE_NAME_RE line = Some g ->
      Forall (fun l => is_fence l = false) body ->
      captures_to_end (line :: body) name body)
  /\ (re_match INLINE_NAME_RE line = Some g ->
      Forall (fun l => is_blank l = true) blanks ->
      is_fence opener = true ->
      Forall (fun l => is_fence l = false) body ->
      captures_to_end (line :: blanks ++ opener :: body) name body)
  /\ (re_match INLINE_NAME_RE line = Some g ->
      Forall (fun l => is_blank l = true) blanks ->
      Forall (fun l => inline_stop l = false) body ->
      is_fence (hd [] body) = false ->
      captures_to_end (line :: blanks ++ body) name body)
  /\ (is_fence line = true ->
      re_match CODEFENCE_NAME_RE line = None ->
      re_match INLINE_NAME_RE next = Some g ->
      name <> [] ->
      Forall (fun l => is_fence l = false) body ->
      captures_to_end (line :: next :: body) name body).
Proof.
  intros name. split; [|split; [|split; [|split]]].
  - intros Hb Hbody. apply captures_to_end_intro; [easy|].
    rewrite (recognize_explicit _ _ _ Hb). unfold explicit_marker.
    now rewrite Hb, (take_until_all _ _ Hbody).
  - intros Hb Hbody. apply captures_to_end_intro; [easy|].
    rewrite (recognize_named _ _ _ Hb). unfold named_fence.
    now rewrite Hb, (take_until_all _ _ Hbody).
  - intros Hb Hblanks Hop Hbody. apply captures_to_end_intro; [easy|].
    rewrite (recognize_inline _ _ _ Hb). unfold inline_name.
    rewrite Hb, (skip_blank_app _ _ Hblanks).
    rewrite (skip_blank_nonblank _ _ (fence_not_blank _ Hop)), Hop.
    now rewrite (take_until_all _ _ Hbody).
  - intros Hb Hblanks Hbody Hhd. apply captures_to_end_intro; [easy|].
    rewrite (recognize_inline _ _ _ Hb). unfold inline_name.
    rewrite Hb, (skip_blank_app _ _ Hblanks).
    destruct body as [|l body']; [reflexivity|].
    assert (is_blank l = false) as Hl.
    { inversion Hbody as [|? ? Hs _]; subst. unfold inline_stop in Hs.
      now destruct (is_blank l). }
    rewrite (skip_blank_nonblank _ _ Hl). simpl in Hhd. rewrite Hhd.
    now rewrite (take_until_all _ _ Hbody).
  - intros Hf Hn Hb Hname Hbody. apply captures_to_end_intro; [easy|].
    rewrite (recognize_fence _ _ Hf Hn). unfold embedded_name.
    rewrite Hf, Hb. fold name.
    apply str_eqb_neq in Hname. rewrite Hname.
    now rewrite (take_until_all _ _ Hbody).
Qed.

Lemma unterminated_block_reaches_end_witness :
  scan 1 [ln "--- BEGIN FILE: notes.md ---"; ln "first"; ln "second"] []
  = [(py "notes.md", (1%nat, py "first" ++ [nl] ++ ln "second"))].
Proof.
  apply (proj1 (unterminated_block_reaches_end
                  (ln "--- BEGIN FILE: notes.md ---") [] (py "notes.md")
                  [] [ln "first"; ln "second"] [])).
  - reflexivity.
  - repeat constructor.
Defined.

(** A name line that holds an empty quoted string, after a fence with a
    language tag: the name normalizes to the empty string and
    [if found_name:] declines. *)
Lemma embedded_name_empty_name_declines :
  ~ embedded_name_accepts (ln "```python")
      (py "name=" ++ [dquote; dquote; nl]) [ln "x = 1"; ln "```"].
Proof.
  intros H. destruct H as [b Hb].
  - reflexivity.
  - reflexivity.
  - eexists. reflexivity.
  - discriminate Hb.
Qed.

(** C10 (amended). A line that starts with three backticks and is not a
    named-fence opener, language tag or not, opens an embedded-name block
    whenever the next line matches the inline-name pattern with a name that
    is not empty after normalization. In each of the three fenced captures
    (embedded name, named fence, inline name followed by a fence) the first
    later line that starts with three backticks, whatever follows them, ends
    the body and is consumed. *)
Theorem fence_recognition
    (line next g : str) (blanks body : list str) (opener close : str)
    (rest : list str) :
  Forall (fun l => is_fence l = false) body ->
  is_fence close = true ->
  let block := Some (normalize_path g, content_of body, rest) in
  (is_fence line = true ->
   re_match CODEFENCE_NAME_RE line = None ->
   re_match INLINE_NAME_RE next = Some g ->
   normalize_path g <> [] ->
   recognize (line :: next :: body ++ close :: rest) = block)
  /\ (re_match CODEFENCE_NAME_RE line = Some g ->
      recognize (line :: body ++ close :: rest) = block)
  /\ (re_match INLINE_NAME_RE line = Some g ->
      Forall (fun l => is_blank l = true) blanks ->
      is_fence opener = true ->
      recognize (line :: blanks ++ opener :: body ++ close :: rest) = block).
Proof.
  intros Hbody Hclose block. split; [|split].
  - intros Hf Hn Hb Hname. rewrite (recognize_fence _ _ Hf Hn).
    unfold embedded_name. rewrite Hf, Hb.
    apply str_eqb_neq in Hname. rewrite Hname.
    rewrite (take_until_stop _ _ _ _ Hbody Hclose).
    now rewrite (skip_if_stop _ _ _ Hclose).
  - intros Hb. rewrite (recognize_named _ _ _ Hb). unfold named_fence.
    rewrite Hb, (take_until_stop _ _ _ _ Hbody Hclose).
    now rewrite (skip_if_stop _ _ _ Hclose).
  - intros Hb Hblanks Hop. rewrite (recognize_inline _ _ _ Hb).
    unfold inline_name. rewrite Hb, (skip_blank_app _ _ Hblanks).
    rewrite (skip_blank_nonblank _ _ (fence_not_blank _ Hop)), Hop.
    rewrite (take_until_stop _ _ _ _ Hbody Hclose).
    now rewrite (skip_if_stop _ _ _ Hclose).
Qed.

Lemma fence_recognition_witness :
  recognize [ln "```python"; ln "name=src/app.py"; ln "x = 1";
             ln "```text trailing"; ln "after"]
  = Some (py "src/app.py", ln "x = 1", [ln "after"]).
Proof.
  apply (proj1 (fence_recognition (ln "```python") (ln "name=src/app.py")
                  (py "src/app.py") [] [ln "x = 1"] []
                  (ln "```text trailing") [ln "after"]
                  ltac:(repeat constructor) eq_refl)).
  - reflexivity.
  - reflexivity.
  - reflexivity.
  - discriminate.
Defined.

(** *** The registry *)

Section Registry.

Lemma od_get_set_eq (d : odict) (k : str) (v : record) :
  od_get (od_set d k v) k = Some v.
Proof.
  induction d as [|[k' v'] d IH]; simpl.
  - now rewrite str_eqb_refl.
  - destruct (str_eqb k' k) eqn:E; simpl.
    + now rewrite str_eqb_refl.
    + now rewrite E.
Qed.

Lemma od_get_set_ne (d : odict) (k k' : str) (v : record) :
  k <> k' -> od_get (od_set d k v) k' = od_get d k'.
Proof.
  intros Hne. induction d as [|[k0 v0] d IH]; simpl.
  - apply str_eqb_neq in Hne. now rewrite Hne.
  - destruct (str_eqb k0 k) eqn:E; simpl.
    + apply str_eqb_eq in E. subst k0.
      apply str_eqb_neq in Hne. now rewrite Hne.
    + destruct (str_eqb k0 k'); [reflexivity | exact IH].
Qed.

Lemma seen_true (k : str) (ks : list str) : seen k ks = true <-> In k ks.
Proof.
  unfold seen. rewrite existsb_exists. split.
  - intros (x & Hx & ->%str_eqb_eq). exact Hx.
  - intros H. exists k. split; [exact H | apply str_eqb_refl].
Qed.

Lemma od_keys_set (d : odict) (k : str) (v : record) :
  od_keys (od_set d k v)
  = if seen k (od_keys d) then od_keys d else od_keys d ++ [k].
Proof.
  induction d as [|[k' v'] d IH]; simpl; [reflexivity|].
  rewrite (str_eqb_sym k k').
  destruct (str_eqb k' k) eqn:E; simpl.
  - apply str_eqb_eq in E. now subst k'.
  - rewrite IH. fold (seen k (od_keys d)).
    now destruct (seen k (od_keys d)).
Qed.

Lemma od_keys_register_all (blocks : list (str * record)) (d : odict) :
  od_keys (register_all blocks d)
  = fold_left (fun ks k => if seen k ks then ks else ks ++ [k])
      (map fst blocks) (od_keys d).
Proof.
  revert d. induction blocks as [|[k v] blocks IH]; intros d; simpl.
  - reflexivity.
  - unfold register_all in *. simpl. rewrite IH, od_keys_set. reflexivity.
Qed.

Lemma register_all_app (a b : list (str * record)) (d : odict) :
  register_all (a ++ b) d = register_all b (register_all a d).
Proof. unfold register_all. apply fold_left_app. Qed.

Lemma od_get_register_all (blocks : list (str * record)) (d : odict) (k : str) :
  od_get (register_all blocks d) k
  = match last_block k blocks with
    | Some v => Some v
    | None => od_get d k
    end.
Proof.
  revert d. induction blocks as [|[k' v] blocks IH]; intros d; simpl.
  - reflexivity.
  - unfold register_all in *. simpl. rewrite IH.
    destruct (last_block k blocks); [reflexivity|].
    destruct (str_eqb k' k) eqn:E.
    + apply str_eqb_eq in E. subst. apply od_get_set_eq.
    + apply str_eqb_neq in E. now apply od_get_set_ne.
Qed.

Lemma last_block_app (k : str) (a b : list (str * record)) :
  last_block k (a ++ b)
  = match last_block k b with
    | Some v => Some v
    | None => last_block k a
    end.
Proof.
  induction a as [|[k' v] a IH]; simpl.
  - now destruct (last_block k b).
  - rewrite IH. now destruct (last_block k b).
Qed.

Lemma last_block_absent (k : str) (blocks : list (str * record)) :
  ~ In k (od_keys blocks) -> last_block k blocks = None.
Proof.
  induction blocks as [|[k' v] blocks IH]; simpl; [reflexivity|].
  intros H. rewrite IH by tauto.
  destruct (str_eqb k' k) eqn:E; [|reflexivity].
  apply str_eqb_eq in E. tauto.
Qed.

Lemma last_block_split (k : str) (v : record) (pre post : list (str * record)) :
  ~ In k (od_keys post) -> last_block k (pre ++ (k, v) :: post) = Some v.
Proof.
  intros H. rewrite last_block_app. simpl.
  now rewrite (last_block_absent _ _ H), str_eqb_refl.
Qed.

Lemma parse_all_register_all (convos : list (list str)) (idx : nat)
    (fm : odict) (u : nat) :
  parse_all convos idx fm u = (register_all (all_blocks convos idx) fm, u).
Proof.
  revert idx fm u. induction convos as [|lines convos IH]; intros idx fm u.
  - reflexivity.
  - simpl. rewrite IH, register_all_app, scan_register_all. reflexivity.
Qed.

Lemma registry_register_all (convos : list (list str)) :
  registry convos = register_all (all_blocks convos 1) [].
Proof. unfold registry. now rewrite parse_all_register_all. Qed.

Lemma last_block_all_none (P : str) (convos : list (list str)) (idx : nat) :
  (forall k lines, convos !! k = Some lines ->
     ~ In P (od_keys (captured_blocks (idx + k) lines))) ->
  last_block P (all_blocks convos idx) = None.
Proof.
  revert idx. induction convos as [|l0 convos IH]; intros idx H; simpl.
  - reflexivity.
  - rewrite last_block_app, IH.
    + apply last_block_absent. specialize (H 0%nat l0 eq_refl).
      now rewrite Nat.add_0_r in H.
    + intros k lines Hk. specialize (H (S k) lines Hk).
      now rewrite Nat.add_succ_r in H.
Qed.

Lemma last_block_all_blocks (P : str) (v : record) (convos : list (list str))
    (idx j : nat) (lines : list str) :
  convos !! j = Some lines ->
  last_block P (captured_blocks (idx + j) lines) = Some v ->
  (forall k lines', (j < k)%nat -> convos !! k = Some lines' ->
     ~ In P (od_keys (captured_blocks (idx + k) lines'))) ->
  last_block P (all_blocks convos idx) = Some v.
Proof.
  revert idx j. induction convos as [|l0 convos IH]; intros idx j Hj Hv Hlater.
  - discriminate.
  - simpl. rewrite last_block_app. destruct j as [|j].
    + injection Hj as ->. rewrite Nat.add_0_r in Hv.
      rewrite last_block_all_none; [exact Hv|].
      intros k lines' Hk. specialize (Hlater (S k) lines').
      rewrite Nat.add_succ_r in Hlater. apply Hlater; [lia | exact Hk].
    + rewrite (IH (S idx) j); [reflexivity | exact Hj | |].
      * now rewrite Nat.add_succ_r in Hv.
      * intros k lines' Hlt Hk. specialize (Hlater (S k) lines').
        rewrite Nat.add_succ_r in Hlater. apply Hlater; [lia | exact Hk].
Qed.

End Registry.

(** C1. Last wins. Let the transcript with source-order index [S j] (the
    transcripts are numbered from 1) capture the path [P], its last block
    for [P] in scan order having content [content], and let no transcript
    with a higher index capture [P]. Then the final record for [P] is that
    block, whatever the transcripts of lower index captured for [P]. *)
Theorem last_wins
    (convos : list (list str)) (P : str) (j : nat) (lines : list str)
    (pre post : list (str * record)) (content : str) :
  convos !! j = Some lines ->
  captured_blocks (S j) lines = pre ++ (P, (S j, content)) :: post ->
  ~ In P (od_keys post) ->
  (forall k lines', (j < k)%nat -> convos !! k = Some lines' ->
     ~ In P (od_keys (captured_blocks (S k) lines'))) ->
  od_get (registry convos) P = Some (S j, content).
Proof.
  intros Hj Hblocks Hpost Hlater.
  rewrite registry_register_all, od_get_register_all.
  rewrite (last_block_all_blocks P (S j, content) convos 1 j lines Hj).
  - reflexivity.
  - simpl. rewrite Hblocks. now apply last_block_split.
  - exact Hlater.
Qed.

Lemma last_wins_witness :
  od_get
    (registry
       [[ln "```name=x.py"; ln "print(1)"; ln "```"];
        [ln "--- BEGIN FILE: x.py ---"; ln "print(0)";
         ln "--- END FILE: x.py ---";
         ln "--- BEGIN FILE: x.py ---"; ln "print(2)";
         ln "--- END FILE: x.py ---"];
        [ln "name=other.txt"; ln "text"]])
    (py "x.py")
  = Some (2%nat, ln "print(2)").
Proof.
  apply (last_wins _ (py "x.py") 1
           [ln "--- BEGIN FILE: x.py ---"; ln "print(0)";
            ln "--- END FILE: x.py ---";
            ln "--- BEGIN FILE: x.py ---"; ln "print(2)";
            ln "--- END FILE: x.py ---"]
           [(py "x.py", (2%nat, ln "print(0)"))] [] (ln "print(2)")).
  - reflexivity.
  - reflexivity.
  - simpl. tauto.
  - intros [|[|[|k]]] lines' Hlt Hk; try lia.
    + injection Hk as <-. vm_compute. intros [H|[]]. discriminate H.
    + discriminate Hk.
Defined.

(** C3 (the code at the failing input). A begin marker whose path is the
    two characters of an empty quoted string normalizes to the empty path,
    and the explicit-marker branch stores a record under it; the
    embedded-name branch, on the same name, declines. *)
Lemma empty_path_is_registered :
  normalize_path [dquote; dquote] = []
  /\ extract_from_file
       [py "--- BEGIN FILE: " ++ [dquote; dquote] ++ ln " ---"; ln "x";
        ln "--- END FILE ---"] [] 0 1
     = ([([], (1%nat, ln "x"))], 0%nat)
  /\ embedded_name
       [ln "```"; py "name=" ++ [dquote; dquote; nl]; ln "x"; ln "```"]
     = None.
Proof. repeat split; reflexivity. Qed.

(** *** What the scan registers *)

Section Names.

Lemma take_until_rest_incl (stop : str -> bool) (ls buf rest : list str) :
  take_until stop ls = (buf, rest) -> incl rest ls.
Proof. intros ->%take_until_app. now apply incl_appr. Qed.

Lemma skip_if_incl (stop : str -> bool) (ls : list str) :
  incl (skip_if stop ls) ls.
Proof.
  destruct ls as [|l ls]; simpl; [easy|].
  destruct (stop l); [now apply incl_tl | easy].
Qed.

Lemma skip_blank_incl (ls : list str) : incl (skip_blank ls) ls.
Proof.
  induction ls as [|l ls IH]; simpl; [easy|].
  destruct (is_blank l); [now apply incl_tl | easy].
Qed.

Lemma fenced_body_incl (ls buf rest : list str) :
  take_until is_fence ls = (buf, rest) -> incl (skip_if is_fence rest) ls.
Proof.
  intros H%take_until_rest_incl.
  exact (incl_tran (skip_if_incl _ _) H).
Qed.

Lemma recognize_rest_incl (ls : list str) (f c : str) (rest : list str) :
  recognize ls = Some (f, c, rest) -> incl rest ls.
Proof.
  intros H. destruct ls as [|line tl]; [discriminate|].
  apply recognize_cases in H as [H|[H|[H|H]]]; simpl in H.
  - destruct (re_match FILE_BEGIN_RE line); [|discriminate].
    destruct (take_until _ tl) as [buf r] eqn:E. injection H as _ _ <-.
    apply incl_tl, (incl_tran (skip_if_incl _ _)).
    exact (take_until_rest_incl _ _ _ _ E).
  - destruct (re_match CODEFENCE_NAME_RE line); [|discriminate].
    destruct (take_until _ tl) as [buf r] eqn:E. injection H as _ _ <-.
    apply incl_tl. exact (fenced_body_incl _ _ _ E).
  - destruct (re_match INLINE_NAME_RE line); [|discriminate].
    pose proof (skip_blank_incl tl) as Hb.
    destruct (skip_blank tl) as [|l tl'].
    + simpl in H. injection H as _ _ <-. easy.
    + destruct (is_fence l).
      * destruct (take_until _ tl') as [buf r] eqn:E. injection H as _ _ <-.
        apply incl_tl, (fun X => incl_tran X Hb), incl_tl.
        exact (fenced_body_incl _ _ _ E).
      * destruct (take_until _ (l :: tl')) as [buf r] eqn:E.
        injection H as _ _ <-.
        apply incl_tl, (fun X => incl_tran X Hb).
        exact (take_until_rest_incl _ _ _ _ E).
  - destruct (is_fence line); [|discriminate].
    destruct tl as [|next tl']; [discriminate|].
    destruct (re_match INLINE_NAME_RE next); [|discriminate].
    destruct (str_eqb _ []); [discriminate|].
    destruct (take_until _ tl') as [buf r] eqn:E. injection H as _ _ <-.
    apply incl_tl, incl_tl. exact (fenced_body_incl _ _ _ E).
Qed.

Lemma recognize_named_by (ls : list str) (f c : str) (rest : list str) :
  recognize ls = Some (f, c, rest) ->
  exists line, In line ls /\ named_by line f.
Proof.
  intros H. destruct ls as [|line tl]; [discriminate|].
  apply recognize_cases in H as [H|[H|[H|H]]]; simpl in H.
  - destruct (re_match FILE_BEGIN_RE line) as [g|] eqn:G; [|discriminate].
    destruct (take_until _ tl). injection H as <- _ _.
    exists line. split; [now left|]. exists g. auto.
  - destruct (re_match CODEFENCE_NAME_RE line) as [g|] eqn:G; [|discriminate].
    destruct (take_until _ tl). injection H as <- _ _.
    exists line. split; [now left|]. exists g. auto.
  - destruct (re_match INLINE_NAME_RE line) as [g|] eqn:G; [|discriminate].
    assert (f = normalize_path g) as ->.
    { destruct (skip_blank tl) as [|l tl'].
      - simpl in H. now injection H as <- _ _.
      - destruct (is_fence l); destruct (take_until _ _);
          now injection H as <- _ _. }
    exists line. split; [now left|]. exists g. auto.
  - destruct (is_fence line); [|discriminate].
    destruct tl as [|next tl']; [discriminate|].
    destruct (re_match INLINE_NAME_RE next) as [g|] eqn:G; [|discriminate].
    destruct (str_eqb _ []); [discriminate|].
    destruct (take_until _ tl'). injection H as <- _ _.
    exists next. split; [right; now left|]. exists g. auto.
Qed.

Lemma captured_keys_named (idx : nat) (ls : list str) (k : str) :
  In k (od_keys (captured_blocks idx ls)) ->
  exists line, In line ls /\ named_by line k.
Proof.
  induction ls as [|line tl E IH|line tl f c rest E IH] using scan_ind.
  - simp captured_blocks. intros [].
  - rewrite captured_blocks_cons, E. intros (l & Hl & Hk)%IH.
    exists l. split; [now right | exact Hk].
  - rewrite captured_blocks_cons, E. simpl. intros [<-|H].
    + exact (recognize_named_by _ _ _ _ E).
    + destruct (IH H) as (l & Hl & Hk). exists l. split; [|exact Hk].
      exact (recognize_rest_incl _ _ _ _ E _ Hl).
Qed.

Lemma od_keys_set_in (d : odict) (k0 : str) (v : record) (k : str) :
  In k (od_keys (od_set d k0 v)) -> k = k0 \/ In k (od_keys d).
Proof.
  rewrite od_keys_set. destruct (seen k0 (od_keys d)); [auto|].
  intros [H|[<-|[]]]%in_app_or; auto.
Qed.

Lemma register_all_keys (blocks : list (str * record)) (d : odict) (k : str) :
  In k (od_keys (register_all blocks d)) ->
  In k (od_keys d) \/ In k (od_keys blocks).
Proof.
  revert d. induction blocks as [|[k0 v] blocks IH]; intros d; simpl; [auto|].
  intros [[->|H]%od_keys_set_in|H]%IH; auto.
Qed.

End Names.

(** *** The claims about the driver, on the part of it that is embedded *)

(** A transcript that names a path of the placeholder form has it
    registered like any other. *)
Lemma placeholder_name_can_be_registered :
  ~ registers_no_placeholder
      [ln "--- BEGIN FILE: unknowns/file_1.txt ---"; ln "stray"].
Proof.
  intros H. apply (H [] 0%nat 1%nat 1%nat).
  - simpl. tauto.
  - vm_compute. left. reflexivity.
Qed.

(** C9 (amended). The extraction pass returns its unknowns counter as it
    received it, and every key it adds to the registry is the normalized
    name carried by a marker line of the transcript: it never makes up a
    placeholder name, and a name of the placeholder form is registered only
    when the transcript itself carries it. *)
Theorem no_placeholder_names
    (lines : list str) (fm : odict) (u idx : nat) :
  snd (extract_from_file lines fm u idx) = u
  /\ (forall k, In k (od_keys (fst (extract_from_file lines fm u idx))) ->
        In k (od_keys fm) \/ exists line, In line lines /\ named_by line k).
Proof.
  split; [reflexivity|].
  intros k. unfold extract_from_file. simpl. rewrite scan_register_all.
  intros [H|H]%register_all_keys; [now left | right].
  exact (captured_keys_named _ _ _ H).
Qed.

Lemma no_placeholder_names_witness :
  In (py "unknowns/file_1.txt") (od_keys [(py "a.txt", (1%nat, ln "old"))]) \/
  exists line,
    In line [ln "name=b.txt"; ln "new"; ln "";
             ln "--- BEGIN FILE: unknowns/file_1.txt ---"; ln "stray"]
    /\ named_by line (py "unknowns/file_1.txt").
Proof.
  apply (proj2 (no_placeholder_names
                  [ln "name=b.txt"; ln "new"; ln "";
                   ln "--- BEGIN FILE: unknowns/file_1.txt ---"; ln "stray"]
                  [(py "a.txt", (1%nat, ln "old"))] 0 2)).
  vm_compute. right. right. left. reflexivity.
Defined.

(** C7 (the code at the failing input). The content registered for a block
    whose only line is the letter e with an acute accent has two characters,
    the number [len(content)] that line 173 stores as the size, and three
    bytes in UTF-8, the encoding line 171 writes it in. *)
Lemma content_length_is_not_byte_length :
  registry [[ln "--- BEGIN FILE: a.txt ---"; [233; nl];
             ln "--- END FILE: a.txt ---"]]
  = [(py "a.txt", (1%nat, [233; nl]))]
  /\ length [233; nl] = 2%nat
  /\ utf8_len [233; nl] = 3%nat.
Proof. repeat split; reflexivity. Qed.



(** *** Scenarios *)

Section Scenarios.

(** An explicit block yields the file with its body and one newline. *)
Example scenario_explicit_block :
  registry [[ln "--- BEGIN FILE: a.txt ---"; ln "hello";
             py "--- END FILE: a.txt ---"]]
  = [(py "a.txt", (1%nat, ln "hello"))].
Proof. reflexivity. Qed.

(** A later transcript replaces the content of an earlier one. *)
Example scenario_later_transcript :
  registry [[ln "```name=x.py"; ln "print(1)"; ln "```"];
            [ln "--- BEGIN FILE: x.py ---"; ln "print(2)";
             ln "--- END FILE: x.py ---"]]
  = [(py "x.py", (2%nat, ln "print(2)"))].
Proof. reflexivity. Qed.

(** A name line, a blank line, then a fence: only the fenced body. *)
Example scenario_inline_name_then_fence :
  registry [[ln "name=util.go"; ln ""; ln "```go"; ln "package util";
             ln "```"; ln "trailing text"]]
  = [(py "util.go", (1%nat, ln "package util"))].
Proof. reflexivity. Qed.

(** A plain block after a name line ends at the first blank line. *)
Example scenario_inline_name_plain :
  registry [[ln "name=notes.txt"; ln "one"; ln "two"; ln ""; ln "three"]]
  = [(py "notes.txt", (1%nat, py "one" ++ [nl] ++ ln "two"))].
Proof. reflexivity. Qed.

(** A bare fence whose next line is no name line captures nothing. *)
Example scenario_bare_fence :
  registry [[ln "```"; ln "x = 1"; ln "```"]] = [].
Proof. reflexivity. Qed.

End Scenarios.

(** ** Further properties of the script *)

(** *** The matcher on structured text *)

Section Matcher.

Context {A : Type}.
Implicit Types (k : str -> option str -> option A) (s t : str).

Lemma strip_prefix_app (t s : str) : strip_prefix t (t ++ s) = Some s.
Proof.
  induction t as [|c t IH]; simpl; [reflexivity|].
  now rewrite N.eqb_refl.
Qed.

Lemma rmatch_lit k (t s : str) (g : option str) :
  rmatch (Lit t) (t ++ s) g k = k s g.
Proof. simpl. now rewrite strip_prefix_app. Qed.

(** A greedy star stops where the class stops, when the rest goes through. *)
Lemma rep_greedy_stop (cls : char -> bool) (w s : str)
    (k' : str -> option A) (v : A) :
  Forall (fun c => cls c = true) w ->
  cls (hd 0 s) = false \/ s = [] ->
  k' s = Some v ->
  rep_match true cls 0 (w ++ s) k' = Some v.
Proof.
  intros Hw Hs Hk. induction Hw as [|c w Hc _ IH]; simpl.
  - destruct s as [|c s]; [exact Hk|].
    destruct Hs as [Hs|Hs]; [|discriminate]. simpl in *. now rewrite Hs.
  - now rewrite Hc, IH.
Qed.

(** A greedy star fails when the rest fails after every run of the class. *)
Lemma rep_greedy_none (cls : char -> bool) (s : str) (k' : str -> option A) :
  (forall w s2, s = w ++ s2 -> Forall (fun c => cls c = true) w ->
     k' s2 = None) ->
  rep_match true cls 0 s k' = None.
Proof.
  induction s as [|c s IH]; intros H; simpl.
  - apply (H [] []); [reflexivity | constructor].
  - destruct (cls c) eqn:Hc.
    + rewrite IH.
      * apply (H [] (c :: s)); [reflexivity | constructor].
      * intros w s2 -> Hw. apply (H (c :: w) s2); [reflexivity|].
        now constructor.
    + apply (H [] (c :: s)); [reflexivity | constructor].
Qed.

(** A greedy star goes through as soon as the rest does after some run. *)
Lemma rep_greedy_some (cls : char -> bool) (w s : str) (k' : str -> option A) :
  Forall (fun c => cls c = true) w ->
  is_Some (k' s) ->
  is_Some (rep_match true cls 0 (w ++ s) k').
Proof.
  intros Hw Hk. induction Hw as [|c w Hc _ IH]; simpl.
  - destruct s as [|c s]; [exact Hk|]. simpl.
    destruct (cls c); [|exact Hk].
    destruct (rep_match true cls 0 s k'); [eauto | exact Hk].
  - rewrite Hc. destruct IH as [x ->]. eauto.
Qed.

(** A lazy repetition takes the shortest run after which the rest goes
    through. *)
Lemma rep_lazy_shortest (cls : char -> bool) (q tail : str)
    (k' : str -> option A) (v : A) :
  Forall (fun c => cls c = true) q ->
  k' tail = Some v ->
  (forall x y, q = x ++ y -> y <> [] -> k' (y ++ tail) = None) ->
  rep_match false cls 0 (q ++ tail) k' = Some v.
Proof.
  intros Hq Hk. induction Hq as [|c q Hc _ IH]; intros Hno; simpl.
  - destruct tail as [|c tail]; [exact Hk|]. simpl.
    destruct (cls c); now rewrite Hk.
  - pose proof (Hno [] (c :: q) eq_refl ltac:(easy)) as E. simpl in E.
    rewrite Hc, E. apply IH. intros x y -> Hy. now apply (Hno (c :: x) y).
Qed.

Lemma rep_lazy_some (cls : char -> bool) (q tail : str) (k' : str -> option A) :
  Forall (fun c => cls c = true) q ->
  is_Some (k' tail) ->
  is_Some (rep_match false cls 0 (q ++ tail) k').
Proof.
  intros Hq Hk. induction Hq as [|c q Hc _ IH]; simpl.
  - destruct tail as [|c tail]; [exact Hk|]. simpl.
    destruct (cls c); [|exact Hk]. destruct Hk as [x ->]. eauto.
  - rewrite Hc. destruct (k' (c :: q ++ tail)); [eauto | exact IH].
Qed.

End Matcher.

Section MarkerLines.

Lemma startswith_app_inv (s t : str) :
  startswith s t = true -> exists s', s = t ++ s'.
Proof.
  revert s. induction t as [|p t IH]; intros s H; [now exists s|].
  apply startswith_cons_inv in H as (s' & -> & H).
  destruct (IH _ H) as [s'' ->]. now exists s''.
Qed.

Lemma strip_prefix_none (t s : str) :
  startswith s t = false -> strip_prefix t s = None.
Proof.
  revert s. induction t as [|p t IH]; intros [|c s]; simpl; try easy.
  destruct (c =? p); [apply IH | reflexivity].
Qed.

Lemma firstn_length_app (a b : str) :
  firstn (length (a ++ b) - length b) (a ++ b) = a.
Proof.
  rewrite length_app, Nat.add_sub.
  induction a as [|c a IH]; simpl; [now destruct b | now rewrite IH].
Qed.

(** Every text splits into its longest run of a class and the rest. *)
Lemma class_run (cls : char -> bool) (s : str) :
  exists x rest, s = x ++ rest /\ Forall (fun c => cls c = true) x
                 /\ (rest = [] \/ exists c r, rest = c :: r /\ cls c = false).
Proof.
  induction s as [|c s (x & rest & -> & Hx & Hrest)].
  - exists [], []. auto.
  - destruct (cls c) eqn:Hc.
    + exists (c :: x), rest. auto.
    + exists [], (c :: x ++ rest). split; [reflexivity|]. split; [constructor|].
      right. eauto.
Qed.

(** The greedy [(.+)] that ends a pattern takes the longest run. *)
Lemma greedy_plus_last (cls : char -> bool) (x rest : str) :
  Forall (fun c => cls c = true) x ->
  rest = [] \/ (exists c r, rest = c :: r /\ cls c = false) ->
  rmatch (Group (Rep true 1 cls)) (x ++ rest) None
    (fun _ g => Some (default [] g))
  = match x with [] => None | _ :: _ => Some x end.
Proof.
  intros Hx Hrest. destruct x as [|c x].
  - simpl. destruct Hrest as [->|(c & r & -> & Hc)]; simpl; [reflexivity|].
    now rewrite Hc.
  - inversion Hx as [|? ? Hc Hx']; subst. cbn [rmatch app rep_match].
    rewrite Hc. erewrite (rep_greedy_stop cls x rest); [reflexivity | exact Hx' | |].
    + destruct Hrest as [->|(c' & r & -> & Hc')]; [now right | now left].
    + cbn beta. do 2 f_equal.
      exact (firstn_length_app (c :: x) rest).
Qed.

End MarkerLines.

(** X1. A line matches the inline-name pattern exactly when it is
    [name=] followed by at least one character other than a newline; the
    name is everything up to the newline or the end of the line. *)
Theorem inline_name_pattern (line g : str) :
  re_match INLINE_NAME_RE line = Some g <->
  exists rest,
    line = py "name=" ++ g ++ rest
    /\ g <> [] /\ Forall (fun c => c <> nl) g
    /\ (rest = [] \/ exists r, rest = nl :: r).
Proof.
  assert (forall x rest,
            Forall (fun c => dot c = true) x ->
            rest = [] \/ (exists c r, rest = c :: r /\ dot c = false) ->
            re_match INLINE_NAME_RE (py "name=" ++ x ++ rest)
            = match x with [] => None | _ :: _ => Some x end) as Hrun.
  { intros x rest Hx Hrest. unfold re_match, INLINE_NAME_RE.
    cbn [rmatch]. rewrite strip_prefix_app.
    exact (greedy_plus_last dot x rest Hx Hrest). }
  assert (forall c, dot c = true <-> c <> nl) as Hdot.
  { intros c. unfold dot. rewrite negb_true_iff. apply N.eqb_neq. }
  split.
  - intros H. pose proof (re_match_literal_prefix _ _ _ _ H) as Hp.
    apply startswith_app_inv in Hp as [s ->].
    destruct (class_run dot s) as (x & rest & -> & Hx & Hrest).
    rewrite (Hrun x rest Hx Hrest) in H.
    destruct x as [|c x]; [discriminate|]. injection H as <-.
    exists rest. split; [reflexivity|]. split; [easy|]. split.
    + eapply Forall_impl; [exact Hx|]. intros a. apply Hdot.
    + destruct Hrest as [->|(c' & r & -> & Hc')]; [now left | right].
      exists r. f_equal. unfold dot in Hc'. rewrite negb_false_iff in Hc'.
      now apply N.eqb_eq.
  - intros (rest & -> & Hg & Hdots & Hrest).
    rewrite Hrun.
    + now destruct g.
    + eapply Forall_impl; [exact Hdots|]. intros a. apply Hdot.
    + destruct Hrest as [->|(r & ->)]; [now left | right].
      exists nl, r. split; reflexivity.
Qed.

Lemma inline_name_pattern_witness :
  re_match INLINE_NAME_RE (ln "name=src/app.py") = Some (py "src/app.py").
Proof.
  apply (proj2 (inline_name_pattern (ln "name=src/app.py") (py "src/app.py"))).
  exists [nl]. split; [reflexivity|]. split; [discriminate|]. split.
  - repeat constructor; discriminate.
  - right. now exists [].
Defined.

Section PlainPaths.

Lemma last_suffix (x y : str) (d : char) :
  y <> [] -> List.last (x ++ y) d = List.last y d.
Proof.
  intros Hy. destruct (exists_last Hy) as (y' & a & ->).
  now rewrite app_assoc, !last_last.
Qed.

Lemma Forall_last (P : char -> Prop) (y : str) (d : char) :
  y <> [] -> Forall P y -> P (List.last y d).
Proof.
  intros Hy H. destruct (exists_last Hy) as (y' & a & ->).
  rewrite last_last. apply Forall_app in H as [_ H]. now inversion H.
Qed.

Lemma hd_rev_last (p : str) (d : char) : hd d (rev p) = List.last p d.
Proof.
  destruct p as [|c p]; [reflexivity|].
  destruct (@exists_last _ (c :: p) ltac:(easy)) as (q & a & ->).
  now rewrite rev_unit, last_last.
Qed.

Lemma lstrip_by_id (f : char -> bool) (s : str) (d : char) :
  f d = true -> f (hd d s) = false -> lstrip_by f s = s.
Proof. destruct s as [|c s]; simpl; [congruence | now intros _ ->]. Qed.

Lemma plain_path_nonempty (p : str) : plain_path p -> p <> [].
Proof. intros (H & _) ->. discriminate H. Qed.

Lemma normalize_path_plain (p : str) : plain_path p -> normalize_path p = p.
Proof.
  intros (Hhd & Hlast & _ & Hbs & Hq & _). unfold normalize_path.
  assert (strip p = p) as ->.
  { unfold strip, rstrip_by. rewrite (lstrip_by_id isspace p 32 eq_refl Hhd).
    rewrite (lstrip_by_id isspace (rev p) 32 eq_refl).
    - apply rev_involutive.
    - now rewrite hd_rev_last. }
  assert (replace_char backslash slash p = p) as ->.
  { unfold replace_char. rewrite <- (map_id p) at 2. apply map_ext_in.
    intros c Hc. destruct (c =? backslash) eqn:E; [|reflexivity].
    apply N.eqb_eq in E. now subst. }
  destruct p as [|c p]; [reflexivity|]. simpl in Hq. simpl.
  apply N.eqb_neq in Hq. now rewrite Hq.
Qed.

Lemma startswith_app (t s : str) : startswith (t ++ s) t = true.
Proof.
  induction t as [|c t IH]; simpl; [now destruct s|].
  now rewrite N.eqb_refl.
Qed.

Lemma has_infix_app (t pre post : str) :
  has_infix t (pre ++ t ++ post) = true.
Proof.
  assert (forall s, has_infix t s
                    = startswith s t
                      || match s with [] => false | _ :: s' => has_infix t s' end)
    as Hunfold by (now intros []).
  induction pre as [|a pre IH].
  - cbn [app]. now rewrite Hunfold, startswith_app.
  - cbn [app]. rewrite Hunfold, IH. apply orb_true_r.
Qed.

(** After a proper non-empty rest of a plain path and a run of blanks, the
    closing dashes of the marker are not yet there. *)
Lemma dashes_not_inside (p x y w s2 tail : str) :
  plain_path p ->
  p = x ++ y -> y <> [] ->
  y ++ 32 :: tail = w ++ s2 ->
  Forall (fun c => isspace c = true) w ->
  startswith s2 (py "---") = false.
Proof.
  intros (_ & Hlast & _ & _ & _ & Hinfix) -> Hy Heq Hw.
  rewrite (last_suffix x y 32 Hy) in Hlast.
  apply app_eq_app in Heq as [l [[-> ->]|[-> Htail]]].
  - destruct l as [|a l].
    + rewrite app_nil_r in Hlast, Hy.
      pose proof (Forall_last _ w 32 Hy Hw) as E. simpl in E. congruence.
    + change (py "---") with [45; 45; 45].
      destruct l as [|b [|c l]]; cbn [app startswith].
      * destruct (a =? 45); reflexivity.
      * destruct (a =? 45), (b =? 45); reflexivity.
      * destruct (a =? 45) eqn:Ea; [|reflexivity].
        destruct (b =? 45) eqn:Eb; [|reflexivity].
        destruct (c =? 45) eqn:Ec; [|reflexivity].
        apply N.eqb_eq in Ea, Eb, Ec. subst. exfalso.
        pose proof (has_infix_app (py "---") (x ++ w) l) as E.
        rewrite <- !app_assoc in E. change (py "---") with [45; 45; 45] in *.
        cbn [app] in E. congruence.
  - apply Forall_app in Hw as [Hw _].
    pose proof (Forall_last _ y 32 Hy Hw) as E. simpl in E. congruence.
Qed.

End PlainPaths.

Lemma re_match_begin_marker (p : str) :
  plain_path p -> re_match FILE_BEGIN_RE (begin_marker p) = Some p.
Proof.
  intros Hp.
  pose proof Hp as (Hhd & _ & Hdot & _).
  destruct p as [|c p']; [discriminate Hhd|]. simpl in Hhd.
  inversion Hdot as [|? ? Hc Hdot']; subst.
  unfold re_match, FILE_BEGIN_RE, begin_marker.
  change (py "--- BEGIN FILE: ")
    with (py "---" ++ [32] ++ py "BEGIN" ++ [32] ++ py "FILE" ++ py ":" ++ [32]).
  change (py " ---") with ([32] ++ py "---").
  rewrite <- !app_assoc. cbn [rmatch].
  rewrite strip_prefix_app.
  apply (rep_greedy_stop isspace [32]); [repeat constructor | now left |].
  rewrite strip_prefix_app.
  enough (forall (a : option str) b, a = Some (c :: p') ->
            match a with Some x => Some x | None => b end = Some (c :: p'))
    as Hfirst by (apply Hfirst; clear Hfirst;
  apply (rep_greedy_stop isspace [32]); [repeat constructor | now left |];
  rewrite strip_prefix_app; rewrite strip_prefix_app;
  apply (rep_greedy_stop isspace [32]);
    [repeat constructor | left; exact Hhd |];
  cbn [app rep_match]; rewrite Hc;
  apply (rep_lazy_shortest dot p' ([32] ++ py "---" ++ [nl]) _ _ Hdot');
  [ apply (rep_greedy_stop isspace [32]); [repeat constructor | now left |];
    rewrite strip_prefix_app; cbn [default]; f_equal;
    exact (firstn_length_app (c :: p') ([32] ++ py "---" ++ [nl]))
  | intros x y Hxy Hy; apply rep_greedy_none; intros w s2 Hs Hw;
    rewrite strip_prefix_none; [reflexivity|];
    apply (dashes_not_inside (c :: p') (c :: x) y w s2 (py "---" ++ [nl]) Hp);
      [now rewrite Hxy | exact Hy | exact Hs | exact Hw] ]).
  intros a b ->. reflexivity.
Qed.

Lemma is_Some_first {B : Type} (a b : option B) :
  is_Some a -> is_Some (match a with Some x => Some x | None => b end).
Proof. now intros [x ->]. Qed.

Lemma matches_end_marker (p : str) :
  p <> [] -> Forall (fun c => c <> nl) p ->
  matches FILE_END_RE (end_marker p) = true.
Proof.
  intros Hne Hp.
  enough (is_Some (re_match FILE_END_RE (end_marker p))) as [g Hg]
    by (unfold matches; now rewrite Hg).
  destruct p as [|c p']; [contradiction|].
  assert (Forall (fun c => dot c = true) (c :: p')) as Hdot.
  { eapply Forall_impl; [exact Hp|]. intros a Ha. unfold dot.
    rewrite negb_true_iff. now apply N.eqb_neq. }
  inversion Hdot as [|? ? Hc Hdot']; subst.
  unfold re_match, FILE_END_RE, end_marker.
  change (py "--- END FILE: ")
    with (py "---" ++ [32] ++ py "END" ++ [32] ++ py "FILE" ++ py ":" ++ [32]).
  change (py " ---") with ([32] ++ py "---").
  rewrite <- !app_assoc. cbn [rmatch].
  rewrite strip_prefix_app.
  apply (rep_greedy_some isspace [32]); [repeat constructor|].
  rewrite strip_prefix_app. apply is_Some_first.
  apply (rep_greedy_some isspace [32]); [repeat constructor|].
  rewrite strip_prefix_app, strip_prefix_app. apply is_Some_first.
  apply (rep_greedy_some isspace [32]); [repeat constructor|].
  cbn [app rep_match]. rewrite Hc.
  apply (rep_lazy_some dot p' ([32] ++ py "---" ++ [nl]) _ Hdot').
  apply (rep_greedy_some isspace [32]); [repeat constructor|].
  rewrite strip_prefix_app. eauto.
Qed.

Lemma rstrip_one_newline (r : str) :
  startswith r [nl] && negb (startswith r [nl; nl]) = true ->
  rev (lstrip_by (N.eqb nl) r) ++ [nl] = rev r.
Proof.
  destruct r as [|a [|b r]]; cbn [startswith]; try discriminate.
  - destruct (a =? nl) eqn:Ea; [|discriminate]. intros _.
    apply N.eqb_eq in Ea. now subst.
  - destruct (a =? nl) eqn:Ea; [|discriminate].
    destruct (b =? nl) eqn:Eb; [now destruct r|]. intros _.
    apply N.eqb_eq in Ea. subst a.
    cbn [lstrip_by]. now rewrite N.eqb_refl, N.eqb_sym, Eb.
Qed.

Lemma content_of_verbatim (buf : list str) :
  ends_with_one_newline (join buf) = true -> content_of buf = join buf.
Proof.
  unfold ends_with_one_newline, endswith, content_of, rstrip_by.
  intros H%rstrip_one_newline. now rewrite rev_involutive in H.
Qed.

(** X2. A begin marker written as in the module docstring around a plain
    path is recognized with exactly that path, which [normalize_path] then
    leaves unchanged. *)
Theorem begin_marker_round_trip (p : str) :
  plain_path p ->
  re_match FILE_BEGIN_RE (begin_marker p) = Some p
  /\ normalize_path p = p.
Proof.
  intros Hp. split; [now apply re_match_begin_marker|].
  now apply normalize_path_plain.
Qed.

Lemma begin_marker_round_trip_witness :
  re_match FILE_BEGIN_RE (ln "--- BEGIN FILE: src/my-app/main v2.py ---")
  = Some (py "src/my-app/main v2.py").
Proof.
  apply (begin_marker_round_trip (py "src/my-app/main v2.py")).
  unfold plain_path. split; [reflexivity|]. split; [reflexivity|].
  split; [repeat constructor|]. split.
  - vm_compute. intuition discriminate.
  - split; [discriminate | reflexivity].
Defined.

(** X3. A line of the shape of an end marker is recognized as one whatever
    path it names, provided the path is not empty and holds no newline. *)
Theorem end_marker_any_path (p : str) :
  p <> [] -> Forall (fun c => c <> nl) p ->
  matches FILE_END_RE (end_marker p) = true.
Proof. apply matches_end_marker. Qed.

Lemma end_marker_any_path_witness :
  matches FILE_END_RE (ln "--- END FILE: --- odd --- name ---") = true.
Proof.
  apply (end_marker_any_path (py "--- odd --- name")).
  - discriminate.
  - repeat constructor; discriminate.
Defined.

(** X4. A file carried between the documented markers is recovered under
    its path with its text verbatim: for a plain path, body lines none of
    which looks like an end marker and whose text ends with exactly one
    newline, the transcript registers the path with the joined body lines,
    whatever path the end marker names. *)
Theorem marked_block_round_trip
    (p q : str) (body : list str) (idx : nat) (fm : odict) :
  plain_path p ->
  q <> [] -> Forall (fun c => c <> nl) q ->
  Forall (fun l => matches FILE_END_RE l = false) body ->
  ends_with_one_newline (join body) = true ->
  extract_from_file (begin_marker p :: body ++ [end_marker q]) fm 0 idx
  = (od_set fm p (idx, join body), 0%nat).
Proof.
  intros Hp Hq Hq' Hbody Hnl. unfold extract_from_file. f_equal.
  rewrite scan_cons, (recognize_explicit _ _ _ (re_match_begin_marker p Hp)).
  unfold explicit_marker.
  rewrite (re_match_begin_marker p Hp), (normalize_path_plain p Hp).
  rewrite (take_until_stop _ _ _ _ Hbody (matches_end_marker q Hq Hq')).
  rewrite (skip_if_stop _ _ _ (matches_end_marker q Hq Hq')).
  now rewrite scan_nil, (content_of_verbatim _ Hnl).
Qed.

Lemma marked_block_round_trip_witness :
  extract_from_file
    [ln "--- BEGIN FILE: docs/read-me.md ---"; ln "# Title"; ln "";
     ln "text"; ln "--- END FILE: something else ---"] [] 0 3
  = ([(py "docs/read-me.md",
       (3%nat, py "# Title" ++ [nl; nl] ++ ln "text"))], 0%nat).
Proof.
  apply (marked_block_round_trip (py "docs/read-me.md")
           (py "something else") [ln "# Title"; ln ""; ln "text"] 3 []).
  - unfold plain_path. split; [reflexivity|]. split; [reflexivity|].
    split; [repeat constructor|]. split.
    + vm_compute. intuition discriminate.
    + split; [discriminate | reflexivity].
  - discriminate.
  - repeat constructor; discriminate.
  - repeat constructor.
  - reflexivity.
Defined.

(** *** Normalization of names and contents *)

Section Normalization.

Lemma in_removelast (x : char) (l : str) : In x (removelast l) -> In x l.
Proof.
  induction l as [|a [|b l] IH]; simpl; [easy | easy |].
  intros [->|H]; [now left | right; now apply IH].
Qed.

Lemma in_slice_1_m1 (x : char) (s : str) : In x (slice_1_m1 s) -> In x s.
Proof.
  unfold slice_1_m1. intros H%in_removelast.
  destruct s; [easy | now right].
Qed.

Lemma removelast_length_le (l : str) : (length (removelast l) <= length l)%nat.
Proof. induction l as [|a [|b l] IH]; simpl in *; lia. Qed.

Lemma lstrip_by_length (f : char -> bool) (s : str) :
  (length (lstrip_by f s) <= length s)%nat.
Proof. induction s as [|c s IH]; simpl; [lia|]. destruct (f c); simpl; lia. Qed.

Lemma rstrip_by_length (f : char -> bool) (s : str) :
  (length (rstrip_by f s) <= length s)%nat.
Proof.
  unfold rstrip_by. rewrite length_rev.
  etransitivity; [apply lstrip_by_length|]. now rewrite length_rev.
Qed.

Lemma replace_char_no_backslash (s : str) :
  ~ In backslash (replace_char backslash slash s).
Proof.
  unfold replace_char. intros (c & Hc & _)%in_map_iff.
  destruct (c =? backslash) eqn:E; [discriminate Hc|].
  apply N.eqb_neq in E. contradiction.
Qed.

(** The newlines that [rstrip] removes. *)
Lemma lstrip_newlines (r : str) :
  exists k, r = repeat nl k ++ lstrip_by (N.eqb nl) r.
Proof.
  induction r as [|a r [k IH]]; [now exists 0%nat|]. cbn [lstrip_by].
  destruct (nl =? a) eqn:E.
  - apply N.eqb_eq in E. subst a. exists (S k). cbn [repeat app].
    now f_equal.
  - now exists 0%nat.
Qed.

Lemma rev_repeat_nl (k : nat) : rev (repeat nl k) = repeat nl k.
Proof.
  induction k as [|k IH]; [reflexivity|]. simpl. rewrite IH.
  clear IH. induction k as [|k IH]; [reflexivity|]. simpl. now rewrite IH.
Qed.

End Normalization.

(** X5. [normalize_path] never returns a string with a backslash in it and
    never returns more characters than it was given. *)
Theorem normalize_path_no_backslash (p : str) :
  ~ In backslash (normalize_path p)
  /\ (length (normalize_path p) <= length p)%nat.
Proof.
  unfold normalize_path.
  assert (length (replace_char backslash slash (strip p)) <= length p)%nat
    as Hlen.
  { unfold replace_char, strip. rewrite length_map.
    etransitivity; [apply rstrip_by_length | apply lstrip_by_length]. }
  pose proof (replace_char_no_backslash (strip p)) as Hbs.
  destruct (_ || _); split; try assumption.
  - intros H%in_slice_1_m1. contradiction.
  - unfold slice_1_m1. etransitivity; [apply removelast_length_le|].
    destruct (replace_char _ _ _); simpl in *; lia.
Qed.

(** X6. [normalize_path] returns the empty string in exactly three cases:
    the token is blank, or what is left of it once blanks are trimmed is
    one double quote or two. *)
Theorem normalize_path_empty_iff (p : str) :
  normalize_path p = [] <->
  strip p = [] \/ strip p = [dquote] \/ strip p = [dquote; dquote].
Proof.
  unfold normalize_path. generalize (strip p) as s. clear p.
  assert (forall a, (if a =? backslash then slash else a) = dquote
                    <-> a = dquote) as Hq.
  { intros a. destruct (a =? backslash) eqn:E; [|reflexivity].
    apply N.eqb_eq in E. subst. split; discriminate. }
  intros [|a [|b [|c s]]]; unfold replace_char; cbn [map].
  - split; [now left | reflexivity].
  - specialize (Hq a). set (a' := if a =? backslash then slash else a) in *.
    unfold endswith. cbn [rev app startswith].
    destruct (a' =? dquote) eqn:E; cbn [andb orb].
    + apply N.eqb_eq, Hq in E. subst a. split; [auto | reflexivity].
    + apply N.eqb_neq in E. split; [discriminate|].
      intros [H|[H|H]]; try discriminate H. injection H as H.
      now apply Hq in H.
  - pose proof (Hq a) as Ha. pose proof (Hq b) as Hb.
    set (a' := if a =? backslash then slash else a) in *.
    set (b' := if b =? backslash then slash else b) in *.
    unfold endswith. cbn [rev app startswith].
    destruct (a' =? dquote) eqn:Ea; destruct (b' =? dquote) eqn:Eb;
      cbn [andb orb].
    + apply N.eqb_eq, Ha in Ea. apply N.eqb_eq, Hb in Eb. subst a b.
      split; [auto | reflexivity].
    + apply N.eqb_neq in Eb. split; [discriminate|].
      intros [H|[H|H]]; try discriminate H.
      injection H as _ H. now apply Hb in H.
    + apply N.eqb_neq in Ea. split; [discriminate|].
      intros [H|[H|H]]; try discriminate H.
      injection H as H _. now apply Ha in H.
    + apply N.eqb_neq in Ea. split; [discriminate|].
      intros [H|[H|H]]; try discriminate H.
      injection H as H _. now apply Ha in H.
  - split; [|intros [H|[H|H]]; discriminate H].
    destruct (_ || _); [|discriminate]. unfold slice_1_m1. cbn [tl].
    cbn [removelast map]. discriminate.
Qed.

Lemma normalize_path_empty_iff_witness :
  normalize_path (py "  " ++ [dquote; dquote] ++ py " ") = [].
Proof.
  apply (proj2 (normalize_path_empty_iff
                  (py "  " ++ [dquote; dquote] ++ py " "))).
  right. right. reflexivity.
Defined.

(** X7. The content of a block is the joined lines of its span with the
    newlines at the end, however many, replaced by one; nothing else of the
    text is changed. *)
Theorem content_of_trailing_newlines (buf : list str) :
  exists (body : str) (k : nat),
    join buf = body ++ repeat nl k
    /\ content_of buf = body ++ [nl]
    /\ List.last body 0 <> nl.
Proof.
  unfold content_of, rstrip_by.
  destruct (lstrip_newlines (rev (join buf))) as [k Hk].
  exists (rev (lstrip_by (N.eqb nl) (rev (join buf)))), k.
  split; [|split; [reflexivity|]].
  - rewrite <- (rev_involutive (join buf)) at 1. rewrite Hk at 1.
    now rewrite rev_app_distr, rev_repeat_nl.
  - rewrite <- hd_rev_last, rev_involutive.
    destruct (lstrip_by _ _) as [|c l] eqn:E; [discriminate|].
    apply lstrip_by_head in E. simpl. apply N.eqb_neq in E. congruence.
Qed.

(** *** Invariants of the registry *)

Section RegistryInvariants.

Lemma od_set_nodup (d : odict) (k : str) (v : record) :
  NoDup (od_keys d) -> NoDup (od_keys (od_set d k v)).
Proof.
  induction d as [|[k' v'] d IH]; simpl; intros H.
  - constructor; [|constructor]. now intros ?%list_elem_of_In.
  - inversion H as [|? ? Hk' Hd]; subst.
    destruct (str_eqb k' k) eqn:E; simpl.
    + apply str_eqb_eq in E. subst. now constructor.
    + apply str_eqb_neq in E. constructor; [|now apply IH].
      intros [->|Hin]%list_elem_of_In%od_keys_set_in; [now apply E|].
      now apply Hk', list_elem_of_In.
Qed.

Lemma register_all_nodup (blocks : list (str * record)) (d : odict) :
  NoDup (od_keys d) -> NoDup (od_keys (register_all blocks d)).
Proof.
  revert d. induction blocks as [|[k v] blocks IH]; intros d H; [exact H|].
  unfold register_all in *. simpl. now apply IH, od_set_nodup.
Qed.

Lemma od_get_absent (d : odict) (k : str) :
  ~ In k (od_keys d) -> od_get d k = None.
Proof.
  induction d as [|[k' v'] d IH]; simpl; [reflexivity|]. intros H.
  destruct (str_eqb k' k) eqn:E.
  - apply str_eqb_eq in E. tauto.
  - apply IH. tauto.
Qed.

(** Two registries with the same keys in the same order and the same
    records are the same. *)
Lemma od_ext (a b : odict) :
  NoDup (od_keys a) ->
  od_keys a = od_keys b ->
  (forall k, od_get a k = od_get b k) ->
  a = b.
Proof.
  revert b. induction a as [|[k v] a IH]; intros [|[k' v'] b] Hnd Hk Hg;
    try discriminate Hk; [reflexivity|].
  simpl in Hk. injection Hk as <- Hk.
  inversion Hnd as [|? ? Hka Hnda]; subst.
  pose proof (Hg k) as Hgk. simpl in Hgk. rewrite str_eqb_refl in Hgk.
  injection Hgk as <-. f_equal. apply IH; [exact Hnda | exact Hk |].
  intros k0. specialize (Hg k0). simpl in Hg.
  destruct (str_eqb k k0) eqn:E; [|exact Hg].
  apply str_eqb_eq in E. subst k0.
  rewrite list_elem_of_In in Hka.
  rewrite (od_get_absent a k Hka). symmetry. apply od_get_absent.
  now rewrite <- Hk.
Qed.

Lemma fold_keys_grow (l ks : list str) :
  exists new,
    fold_left (fun ks k => if seen k ks then ks else ks ++ [k]) l ks
    = ks ++ new.
Proof.
  revert ks. induction l as [|k l IH]; intros ks; simpl.
  - exists []. now rewrite app_nil_r.
  - destruct (seen k ks); [apply IH|].
    destruct (IH (ks ++ [k])) as [new ->]. exists (k :: new).
    now rewrite <- app_assoc.
Qed.

Lemma fold_keys_contains (l ks : list str) (k : str) :
  In k l \/ In k ks ->
  In k (fold_left (fun ks k => if seen k ks then ks else ks ++ [k]) l ks).
Proof.
  revert ks. induction l as [|k0 l IH]; intros ks; simpl.
  - now intros [[]|H].
  - intros [[->|H]|H]; apply IH.
    + right. destruct (seen k ks) eqn:E; [now apply seen_true|].
      apply in_or_app. right. now left.
    + now left.
    + right. destruct (seen k0 ks); [exact H|]. apply in_or_app. now left.
Qed.

Lemma fold_keys_seen (l ks : list str) :
  (forall k, In k l -> In k ks) ->
  fold_left (fun ks k => if seen k ks then ks else ks ++ [k]) l ks = ks.
Proof.
  induction l as [|k l IH]; intros H; simpl; [reflexivity|].
  rewrite (proj2 (seen_true k ks)) by (apply H; now left).
  apply IH. intros k' Hk'. apply H. now right.
Qed.

Lemma od_set_in (d : odict) (k : str) (v : record) (e : str * record) :
  In e (od_set d k v) -> e = (k, v) \/ In e d.
Proof.
  induction d as [|[k' v'] d IH]; simpl.
  - intros [<-|[]]. now left.
  - destruct (str_eqb k' k); simpl.
    + intros [<-|H]; auto.
    + intros [<-|H]; [auto|]. destruct (IH H); auto.
Qed.

Lemma register_all_in (blocks : list (str * record)) (d : odict)
    (e : str * record) :
  In e (register_all blocks d) -> In e d \/ In e blocks.
Proof.
  revert d. induction blocks as [|[k v] blocks IH]; intros d; simpl; [auto|].
  intros H. apply IH in H as [H|H]; [|auto].
  apply od_set_in in H as [->|H]; auto.
Qed.

Lemma recognize_content (ls : list str) (f c : str) (rest : list str) :
  recognize ls = Some (f, c, rest) -> exists buf, c = content_of buf.
Proof.
  intros [H|[H|[H|H]]]%recognize_cases;
    [exact (explicit_marker_content _ _ _ _ H)
    | exact (named_fence_content _ _ _ _ H)
    | exact (inline_name_content _ _ _ _ H)
    | exact (embedded_name_content _ _ _ _ H)].
Qed.

Lemma captured_blocks_in (idx : nat) (ls : list str) (p : str) (i : nat)
    (c : str) :
  In (p, (i, c)) (captured_blocks idx ls) ->
  i = idx /\ (exists buf, c = content_of buf)
  /\ exists line, In line ls /\ named_by line p.
Proof.
  induction ls as [|line tl E IH|line tl f c0 rest E IH] using scan_ind.
  - simp captured_blocks. intros [].
  - rewrite captured_blocks_cons, E. intros (-> & Hc & l & Hl & Hn)%IH.
    split; [reflexivity|]. split; [exact Hc|]. exists l. split; [now right|].
    exact Hn.
  - rewrite captured_blocks_cons, E. intros [[= <- <- <-]|H].
    + split; [reflexivity|]. split; [exact (recognize_content _ _ _ _ E)|].
      exact (recognize_named_by _ _ _ _ E).
    + destruct (IH H) as (-> & Hc & l & Hl & Hn).
      split; [reflexivity|]. split; [exact Hc|]. exists l. split; [|exact Hn].
      exact (recognize_rest_incl _ _ _ _ E _ Hl).
Qed.

Lemma all_blocks_in (convos : list (list str)) (idx : nat)
    (e : str * record) :
  In e (all_blocks convos idx) ->
  exists j lines, convos !! j = Some lines
                  /\ In e (captured_blocks (idx + j) lines).
Proof.
  revert idx. induction convos as [|l0 convos IH]; intros idx; simpl.
  - intros [].
  - intros [H|H]%in_app_or.
    + exists 0%nat, l0. now rewrite Nat.add_0_r.
    + destruct (IH _ H) as (j & lines & Hj & Hin).
      exists (S j), lines. now rewrite Nat.add_succ_r.
Qed.

End RegistryInvariants.

(** X8. Extraction only adds to the registry: the paths already registered
    keep their positions, new paths come after them, and the record of a
    path that no line of the transcript names is left as it was. *)
Theorem extraction_keeps_registry
    (lines : list str) (fm : odict) (u idx : nat) (k : str) :
  (exists new,
     od_keys (fst (extract_from_file lines fm u idx)) = od_keys fm ++ new)
  /\ ((forall line, In line lines -> ~ named_by line k) ->
      od_get (fst (extract_from_file lines fm u idx)) k = od_get fm k).
Proof.
  unfold extract_from_file. cbn [fst]. rewrite scan_register_all. split.
  - rewrite od_keys_register_all. apply fold_keys_grow.
  - intros H. rewrite od_get_register_all, last_block_absent; [reflexivity|].
    intros (line & Hl & Hn)%captured_keys_named. exact (H line Hl Hn).
Qed.

Lemma extraction_keeps_registry_witness :
  od_get
    (fst (extract_from_file [ln "name=b.txt"; ln "new"]
            [(py "a.txt", (1%nat, ln "old"))] 0 2))
    (py "a.txt")
  = Some (1%nat, ln "old").
Proof.
  apply (proj2 (extraction_keeps_registry [ln "name=b.txt"; ln "new"]
                  [(py "a.txt", (1%nat, ln "old"))] 0 2 (py "a.txt"))).
  intros line [<-|[<-|[]]] (g & [H|[H|H]] & Hk); vm_compute in H;
    try discriminate H.
  injection H as <-. vm_compute in Hk. discriminate Hk.
Defined.

(** X9. Every record of the registry comes from the transcript whose
    index it carries: the index lies between 1 and the number of
    transcripts, a line of that transcript names the path, and the content
    ends with exactly one newline. *)
Theorem registry_record_provenance
    (convos : list (list str)) (p : str) (i : nat) (c : str) :
  In (p, (i, c)) (registry convos) ->
  (1 <= i <= length convos)%nat
  /\ (exists lines, convos !! (i - 1)%nat = Some lines
                    /\ exists line, In line lines /\ named_by line p)
  /\ ends_with_one_newline c = true.
Proof.
  rewrite registry_register_all.
  intros [[]|H]%register_all_in.
  apply all_blocks_in in H as (j & lines & Hj & H).
  apply captured_blocks_in in H as (-> & [buf ->] & Hline).
  split; [|split].
  - apply lookup_lt_Some in Hj. lia.
  - exists lines. split; [|exact Hline].
    now replace (1 + j - 1)%nat with j by lia.
  - apply content_of_one_newline.
Qed.

Lemma registry_record_provenance_witness :
  (1 <= 2 <= 2)%nat
  /\ (exists lines,
        [[ln "name=a.txt"; ln "one"]; [ln "```name=b.txt"; ln "two"; ln "```"]]
          !! (2 - 1)%nat = Some lines
        /\ exists line, In line lines /\ named_by line (py "b.txt"))
  /\ ends_with_one_newline (ln "two") = true.
Proof.
  apply (registry_record_provenance
           [[ln "name=a.txt"; ln "one"];
            [ln "```name=b.txt"; ln "two"; ln "```"]]
           (py "b.txt") 2 (ln "two")).
  vm_compute. right. left. reflexivity.
Defined.

(** X10. Extracting the same transcript again under the same index changes
    nothing: on a registry with distinct keys the second pass returns the
    registry of the first. *)
Theorem extraction_idempotent
    (lines : list str) (fm : odict) (u idx : nat) :
  NoDup (od_keys fm) ->
  extract_from_file lines (fst (extract_from_file lines fm u idx)) u idx
  = extract_from_file lines fm u idx.
Proof.
  intros Hnd. unfold extract_from_file. cbn [fst]. f_equal.
  rewrite !scan_register_all.
  set (B := captured_blocks idx lines). apply od_ext.
  - now apply register_all_nodup, register_all_nodup.
  - rewrite (od_keys_register_all B (register_all B fm)).
    apply fold_keys_seen. intros k Hk.
    rewrite od_keys_register_all. apply fold_keys_contains. now left.
  - intros k. rewrite !od_get_register_all. now destruct (last_block k B).
Qed.

Lemma extraction_idempotent_witness :
  extract_from_file [ln "name=b.txt"; ln "new"; ln ""; ln "name=a.txt"; ln "x"]
    (fst (extract_from_file
            [ln "name=b.txt"; ln "new"; ln ""; ln "name=a.txt"; ln "x"]
            [(py "a.txt", (1%nat, ln "old"))] 0 2)) 0 2
  = ([(py "a.txt", (2%nat, ln "x")); (py "b.txt", (2%nat, ln "new"))], 0%nat).
Proof.
  rewrite (extraction_idempotent
             [ln "name=b.txt"; ln "new"; ln ""; ln "name=a.txt"; ln "x"]
             [(py "a.txt", (1%nat, ln "old"))] 0 2).
  - reflexivity.
  - repeat constructor. now intros ?%list_elem_of_In.
Defined.

(** *** Lines that start nothing, and lines that end a plain block *)

Section Skipping.

Lemma begin_is_dashed (line g : str) :
  re_match FILE_BEGIN_RE line = Some g -> exists s, line = 45 :: s.
Proof.
  intros H%re_match_literal_prefix. change (py "---") with (45 :: py "--") in H.
  apply startswith_cons_inv in H as (s & -> & _). eauto.
Qed.

Lemma unmarked_recognize (line : str) (tl : list str) :
  re_match FILE_BEGIN_RE line = None ->
  re_match CODEFENCE_NAME_RE line = None ->
  (forall next tl' g, tl = next :: tl' ->
     re_match INLINE_NAME_RE next = Some g -> normalize_path g = []) ->
  re_match INLINE_NAME_RE line = None ->
  recognize (line :: tl) = None.
Proof.
  intros Hb Hc Hnext Hi.
  unfold recognize, explicit_marker, named_fence, inline_name, embedded_name.
  rewrite Hb, Hc, Hi. destruct (is_fence line); [|reflexivity].
  destruct tl as [|next tl']; [reflexivity|].
  destruct (re_match INLINE_NAME_RE next) as [g|] eqn:E; [|reflexivity].
  now rewrite (Hnext next tl' g eq_refl E).
Qed.

End Skipping.

(** X11. Transcripts in which no line matches one of the three marker
    patterns leave the registry empty. *)
Theorem unmarked_transcripts_extract_nothing (convos : list (list str)) :
  Forall (Forall (fun l => re_match FILE_BEGIN_RE l = None
                           /\ re_match CODEFENCE_NAME_RE l = None
                           /\ re_match INLINE_NAME_RE l = None)) convos ->
  registry convos = [].
Proof.
  intros H.
  assert (forall idx lines,
            Forall (fun l => re_match FILE_BEGIN_RE l = None
                             /\ re_match CODEFENCE_NAME_RE l = None
                             /\ re_match INLINE_NAME_RE l = None) lines ->
            captured_blocks idx lines = []) as Hnone.
  { intros idx lines Hl. induction Hl as [|l lines (Hb & Hc & Hi) Hl IH].
    - now simp captured_blocks.
    - rewrite captured_blocks_cons, unmarked_recognize; try assumption.
      intros next tl' g -> Hg. inversion Hl as [|? ? (_ & _ & Hn) _]; subst.
      congruence. }
  rewrite registry_register_all. generalize 1%nat as idx.
  induction H as [|lines convos Hl _ IH]; intros idx; [reflexivity|].
  cbn [all_blocks]. rewrite (Hnone idx lines Hl). cbn [app]. apply IH.
Qed.

Lemma unmarked_transcripts_extract_nothing_witness :
  registry [[ln "Hello,"; ln "```"; ln "x = 1"; ln "```"]; []] = [].
Proof.
  apply (unmarked_transcripts_extract_nothing
           [[ln "Hello,"; ln "```"; ln "x = 1"; ln "```"]; []]).
  repeat constructor.
Defined.

(** X12. A plain block after a name line ends before the first blank line,
    name line or begin marker, and that line is not consumed: the scan goes
    on with it, so a name line or a begin marker that ends a block starts
    the next one. *)
Theorem inline_plain_block_stop
    (line g : str) (blanks body : list str) (stopl : str) (rest : list str)
    (idx : nat) (fm : odict) :
  re_match INLINE_NAME_RE line = Some g ->
  Forall (fun l => is_blank l = true) blanks ->
  body <> [] ->
  Forall (fun l => inline_stop l = false) body ->
  is_fence (hd [] body) = false ->
  inline_stop stopl = true ->
  scan idx (line :: blanks ++ body ++ stopl :: rest) fm
  = scan idx (stopl :: rest)
      (od_set fm (normalize_path g) (idx, content_of body)).
Proof.
  intros Hg Hblanks Hne Hbody Hhd Hstop.
  rewrite scan_cons, (recognize_inline _ _ _ Hg). unfold inline_name.
  rewrite Hg, (skip_blank_app _ _ Hblanks).
  destruct body as [|l body']; [contradiction|].
  assert (is_blank l = false) as Hl.
  { inversion Hbody as [|? ? Hs _]; subst. unfold inline_stop in Hs.
    now destruct (is_blank l). }
  cbn [app]. rewrite (skip_blank_nonblank _ _ Hl). simpl in Hhd. rewrite Hhd.
  change (l :: body' ++ stopl :: rest) with ((l :: body') ++ stopl :: rest).
  now rewrite (take_until_stop _ _ _ _ Hbody Hstop).
Qed.

Lemma inline_plain_block_stop_witness :
  scan 1 [ln "name=a.txt"; ln "one"; ln "name=b.txt"; ln "two"] []
  = scan 1 [ln "name=b.txt"; ln "two"] [(py "a.txt", (1%nat, ln "one"))].
Proof.
  apply (inline_plain_block_stop (ln "name=a.txt") (py "a.txt") [] [ln "one"]
           (ln "name=b.txt") [ln "two"] 1 []).
  - reflexivity.
  - constructor.
  - discriminate.
  - repeat constructor.
  - reflexivity.
  - reflexivity.
Defined.

(** X13. A fence line without a name that is not followed by a usable name
    line (no next line, a next line that is no name line, or a name that is
    empty after normalization) captures nothing and only that one line is
    passed over: the lines inside the fence are scanned like any other. *)
Theorem bare_fence_skipped
    (line : str) (tl : list str) (idx : nat) (fm : odict) :
  is_fence line = true ->
  re_match CODEFENCE_NAME_RE line = None ->
  (forall next tl' g, tl = next :: tl' ->
     re_match INLINE_NAME_RE next = Some g -> normalize_path g = []) ->
  recognize (line :: tl) = None
  /\ scan idx (line :: tl) fm = scan idx tl fm.
Proof.
  intros Hf Hc Hnext.
  assert (recognize (line :: tl) = None) as E.
  { apply unmarked_recognize; try assumption.
    - now apply fence_not_begin.
    - now apply fence_not_inline. }
  split; [exact E|]. now rewrite scan_cons, E.
Qed.

Lemma bare_fence_skipped_witness :
  scan 1 [ln "```python"; ln "--- BEGIN FILE: a.txt ---"; ln "x"; ln "```"] []
  = scan 1 [ln "--- BEGIN FILE: a.txt ---"; ln "x"; ln "```"] [].
Proof.
  apply (bare_fence_skipped (ln "```python")
           [ln "--- BEGIN FILE: a.txt ---"; ln "x"; ln "```"] 1 []).
  - reflexivity.
  - reflexivity.
  - intros next tl' g [= <- <-] H. vm_compute in H. discriminate H.
Defined.

(** X14. No line starts two kinds of block: a line matches at most one of
    the begin-marker, named-fence and inline-name patterns, and a line that
    matches the begin-marker or the inline-name pattern is not a fence. *)
Theorem marker_patterns_exclusive (line g : str) :
  (re_match FILE_BEGIN_RE line = Some g ->
   re_match CODEFENCE_NAME_RE line = None
   /\ re_match INLINE_NAME_RE line = None /\ is_fence line = false)
  /\ (re_match CODEFENCE_NAME_RE line = Some g ->
      re_match FILE_BEGIN_RE line = None
      /\ re_match INLINE_NAME_RE line = None)
  /\ (re_match INLINE_NAME_RE line = Some g ->
      re_match FILE_BEGIN_RE line = None
      /\ re_match CODEFENCE_NAME_RE line = None /\ is_fence line = false).
Proof.
  split; [|split].
  - intros [s ->]%begin_is_dashed. repeat split; reflexivity.
  - intros H%codefence_is_fence.
    split; [now apply fence_not_begin | now apply fence_not_inline].
  - intros H. split; [exact (inline_not_begin _ _ H)|].
    split; [exact (inline_not_codefence _ _ H)|].
    apply re_match_literal_prefix in H.
    change (py "name=") with (110 :: py "ame=") in H.
    apply startswith_cons_inv in H as (s & -> & _). reflexivity.
Qed.

Lemma marker_patterns_exclusive_witness :
  re_match FILE_BEGIN_RE (ln "name=--- BEGIN FILE: a ---") = None
  /\ re_match CODEFENCE_NAME_RE (ln "name=--- BEGIN FILE: a ---") = None
  /\ is_fence (ln "name=--- BEGIN FILE: a ---") = false.
Proof.
  apply (proj2 (proj2 (marker_patterns_exclusive
                         (ln "name=--- BEGIN FILE: a ---")
                         (py "--- BEGIN FILE: a ---")))).
  reflexivity.
Defined.

(** X17. A fence line that carries [name=], with or without blanks between
    the backticks and the word, is a named-fence opener, and its name is
    the rest of the line up to the newline. *)
Theorem named_fence_pattern (ws g rest : str) :
  Forall (fun c => isspace c = true) ws ->
  g <> [] -> Forall (fun c => c <> nl) g ->
  rest = [] \/ (exists r, rest = nl :: r) ->
  re_match CODEFENCE_NAME_RE (py "```" ++ ws ++ py "name=" ++ g ++ rest)
  = Some g.
Proof.
  intros Hws Hg Hdots Hrest.
  assert (Forall (fun c => dot c = true) g) as Hdot.
  { eapply Forall_impl; [exact Hdots|]. intros a Ha. unfold dot.
    rewrite negb_true_iff. now apply N.eqb_neq. }
  assert (rest = [] \/ (exists c r, rest = c :: r /\ dot c = false)) as Hrest'.
  { destruct Hrest as [->|(r & ->)]; [now left | right].
    exists nl, r. split; reflexivity. }
  unfold re_match, CODEFENCE_NAME_RE. cbn [rmatch].
  rewrite strip_prefix_app.
  apply (rep_greedy_stop isspace ws); [exact Hws | now left |].
  rewrite strip_prefix_app.
  destruct g as [|c g]; [contradiction|].
  exact (greedy_plus_last dot (c :: g) rest Hdot Hrest').
Qed.

Lemma named_fence_pattern_witness :
  re_match CODEFENCE_NAME_RE (ln "```  name=lib/a b.rs") = Some (py "lib/a b.rs").
Proof.
  apply (named_fence_pattern (py "  ") (py "lib/a b.rs") [nl]).
  - repeat constructor.
  - discriminate.
  - repeat constructor; discriminate.
  - right. now exists [].
Defined.
